(** * SizeLimitedMap: a fixed-capacity map with first-in-first-out eviction

    A shallow embedding of [src/index.ts].  The class wraps a built-in
    JavaScript [Map] and keeps one long-lived key iterator over it; when a
    new key arrives and the map is full, the key the iterator yields next is
    deleted.  The built-in [Map] and its iterator are modelled after
    ECMAScript (sections "Map Objects" and "CreateMapIterator"): the map is
    a list of records that only grows, a deleted record is blanked in place,
    and an iterator is an index into that list. *)

From Stdlib Require Import QArith Qround.
From stdpp Require Import base decidable option list strings.

Local Open Scope Z_scope.
Local Open Scope nat_scope.

(** ** JavaScript values that reach the constructor *)

(** A JavaScript number.  Every finite double is a rational and the only
    operations the class applies to [maxSize] are comparisons with integers,
    which are exact, so finite numbers are rationals here. *)
Inductive number : Type :=
  | NaN
  | Infinity
  | NegInfinity
  | Finite (q : Q).

Inductive jsval : Type :=
  | JSUndefined
  | JSNull
  | JSBoolean (b : bool)
  | JSString (s : string)
  | JSNumber (n : number)
  | JSObject.

Definition typeof (v : jsval) : string :=
  match v with
  | JSUndefined => "undefined"
  | JSNull | JSObject => "object"
  | JSBoolean _ => "boolean"
  | JSString _ => "string"
  | JSNumber _ => "number"
  end.

Definition Number_isNaN (n : number) : bool :=
  match n with NaN => true | _ => false end.

Definition Number_isFinite (n : number) : bool :=
  match n with Finite _ => true | _ => false end.

(** [a < b] on numbers; any comparison with [NaN] is false. *)
Definition number_lt (a b : number) : bool :=
  match a, b with
  | NaN, _ | _, NaN => false
  | Finite x, Finite y => if Qlt_le_dec x y then true else false
  | Finite _, Infinity => true
  | Finite _, NegInfinity => false
  | Infinity, _ => false
  | NegInfinity, NegInfinity => false
  | NegInfinity, _ => true
  end.

(** [a >= b] on numbers. *)
Definition number_ge (a b : number) : bool :=
  match a, b with
  | NaN, _ | _, NaN => false
  | _, _ => negb (number_lt a b)
  end.

Arguments number_lt : simpl never.
Arguments number_ge : simpl never.

Definition number_of_nat (n : nat) : number := Finite (inject_Z (Z.of_nat n)).
Definition number_of_Z (z : Z) : number := Finite (inject_Z z).

(** ** Completion records *)

Inductive Error : Type := mkError (message : string).

Inductive completion (A : Type) : Type :=
  | Normal (a : A)
  | Throw (e : Error).
Arguments Normal {A} a.
Arguments Throw {A} e.

(** ** Keys *)

(** Map keys are arbitrary JavaScript values compared with SameValueZero;
    [undefined] is one of them, and it is what [next().value] is once an
    iterator is done. *)
Class JSKey (K : Type) := {
  JSKey_eq_dec :: EqDecision K;
  undefined : K
}.

(** Keys used in the examples: [undefined] and strings. *)
Inductive jskey : Type :=
  | KUndefined
  | KString (s : string).

#[global] Instance jskey_eq_dec : EqDecision jskey.
Proof. solve_decision. Defined.

#[global] Instance jskey_JSKey : JSKey jskey :=
  {| undefined := KUndefined |}.

(** ** The built-in Map *)

Section BuiltinMap.
Context {K : Type} `{!JSKey K} {V : Type}.

(** [[MapData]]: the records in insertion order; [None] is a record whose
    key and value were set to empty by [delete] or [clear]. *)
Definition Map : Type := list (option (K * V)).

Fixpoint Map_get (m : Map) (key : K) : option V :=
  match m with
  | [] => None
  | Some (k, v) :: rest => if decide (k = key) then Some v else Map_get rest key
  | None :: rest => Map_get rest key
  end.

Fixpoint Map_has (m : Map) (key : K) : bool :=
  match m with
  | [] => false
  | Some (k, _) :: rest => if decide (k = key) then true else Map_has rest key
  | None :: rest => Map_has rest key
  end.

(** An existing record is updated where it stands; otherwise a record is
    appended. *)
Fixpoint Map_set (m : Map) (key : K) (value : V) : Map :=
  match m with
  | [] => [Some (key, value)]
  | Some (k, v) :: rest =>
      if decide (k = key) then Some (k, value) :: rest
      else Some (k, v) :: Map_set rest key value
  | None :: rest => None :: Map_set rest key value
  end.

(** The record is blanked, not removed; the result says whether there was
    one. *)
Fixpoint Map_delete (m : Map) (key : K) : bool * Map :=
  match m with
  | [] => (false, [])
  | Some (k, v) :: rest =>
      if decide (k = key) then (true, None :: rest)
      else let '(b, rest') := Map_delete rest key in (b, Some (k, v) :: rest')
  | None :: rest =>
      let '(b, rest') := Map_delete rest key in (b, None :: rest')
  end.

Definition Map_clear (m : Map) : Map := (λ _, None) <$> m.

Definition Map_entries (m : Map) : list (K * V) := omap id m.
Definition Map_keys (m : Map) : list K := (Map_entries m).*1.
Definition Map_values (m : Map) : list V := (Map_entries m).*2.
Definition Map_size (m : Map) : nat := length (Map_entries m).

(** [new Map(entries)]: each entry is added with [set], in order. *)
Definition Map_new (entries : option (list (K * V))) : Map :=
  foldl (λ m kv, Map_set m kv.1 kv.2) [] (default [] entries).

(** A key iterator: the index of the next record to look at, and whether
    the iterator has already returned. *)
Record MapIterator : Type := mkMapIterator {
  index : nat;
  exhausted : bool
}.

Record IteratorResult : Type := mkIteratorResult {
  value : K;
  done : bool
}.

Definition Map_keys_iterator : MapIterator :=
  {| index := 0; exhausted := false |}.

(** Walk the records from position [i]; the first one that is not blank
    gives the key and the position after it. *)
Fixpoint MapData_scan (records : Map) (i : nat) : option (K * nat) :=
  match records with
  | [] => None
  | Some (k, _) :: _ => Some (k, S i)
  | None :: rest => MapData_scan rest (S i)
  end.

(** [it.next()] on an iterator over [m].  The length of the record list is
    read anew at each call; once the end is reached the iterator is done
    for good. *)
Definition MapIterator_next (it : MapIterator) (m : Map)
  : IteratorResult * MapIterator :=
  if exhausted it then ({| value := undefined; done := true |}, it)
  else
    match MapData_scan (drop (index it) m) (index it) with
    | Some (k, i) =>
        ({| value := k; done := false |}, {| index := i; exhausted := false |})
    | None =>
        ({| value := undefined; done := true |},
         {| index := length m; exhausted := true |})
    end.

End BuiltinMap.

Arguments Map K V : clear implicits, assert.
Arguments Map_entries {K V} m : simpl never.
Arguments Map_keys {K V} m : simpl never.
Arguments Map_values {K V} m : simpl never.
Arguments Map_size {K V} m : simpl never.

(** ** The class *)

Module SizeLimitedMap.

Section Class.
Context {K : Type} `{!JSKey K} {V : Type}.

Record t : Type := mk {
  maxSize : number;
  map : Map K V;
  keysIterator : MapIterator
}.

(** [new SizeLimitedMap(maxSize, entries)].  The first guard,
    [typeof maxSize !== "number" || Number.isNaN(maxSize)], is the
    [NaN] test for a number and the last case for any other value.  The
    entries go to [new Map(entries)] as they are. *)
Definition constructor (maxSize : jsval) (entries : option (list (K * V)))
  : completion t :=
  match maxSize with
  | JSNumber n =>
      if Number_isNaN n then Throw (mkError "Cache size must be a number")
      else if number_lt n (Finite 1) || negb (Number_isFinite n) then
        Throw (mkError "Cache size must at least be 1, and finite.")
      else
        Normal {| maxSize := n;
                  map := Map_new entries;
                  keysIterator := Map_keys_iterator |}
  | _ => Throw (mkError "Cache size must be a number")
  end.

(** [set(key, value)].  An existing key is overwritten.  For a new key,
    when [this.map.size >= this.maxSize] the key that
    [this.keysIterator.next().value] gives is deleted first; then the new
    entry is added. *)
Definition set (key : K) (value : V) (this : t) : t :=
  if Map_has (map this) key then
    {| maxSize := maxSize this;
       map := Map_set (map this) key value;
       keysIterator := keysIterator this |}
  else
    let '(m, it) :=
      if number_ge (number_of_nat (Map_size (map this))) (maxSize this) then
        let '(mkIteratorResult evicted _, it') :=
          MapIterator_next (keysIterator this) (map this) in
        ((Map_delete (map this) evicted).2, it')
      else (map this, keysIterator this) in
    {| maxSize := maxSize this;
       map := Map_set m key value;
       keysIterator := it |}.

(** The remaining methods delegate to the underlying map. *)
Definition size (this : t) : nat := Map_size (map this).
Definition get (key : K) (this : t) : option V := Map_get (map this) key.
Definition has (key : K) (this : t) : bool := Map_has (map this) key.

Definition delete (key : K) (this : t) : bool * t :=
  let '(b, m) := Map_delete (map this) key in
  (b, {| maxSize := maxSize this; map := m; keysIterator := keysIterator this |}).

Definition clear (this : t) : t :=
  {| maxSize := maxSize this;
     map := Map_clear (map this);
     keysIterator := keysIterator this |}.

(** The iteration accessors, as the sequences a fresh iterator produces
    when it is consumed at once. *)
Definition entries (this : t) : list (K * V) := Map_entries (map this).
Definition keys (this : t) : list K := Map_keys (map this).
Definition values (this : t) : list V := Map_values (map this).

(** *** Sequences of calls

    The commands of the model test, and [clear]. *)

Inductive command : Type :=
  | SetCommand (k : K) (v : V)
  | DeleteCommand (k : K)
  | ClearCommand.

Definition run (c : command) (r : t) : t :=
  match c with
  | SetCommand k v => set k v r
  | DeleteCommand k => (delete k r).2
  | ClearCommand => clear r
  end.

Definition modelRun (cmds : list command) (r : t) : t :=
  foldl (λ r c, run c r) r cmds.

(** The states after each call of [cmds], in order. *)
Fixpoint trace (cmds : list command) (r : t) : list t :=
  match cmds with
  | [] => []
  | c :: cmds' => run c r :: trace cmds' (run c r)
  end.

(** Every public method except [forEach], as one call; the result carries
    the returned value and the object after the call. *)
Inductive call : Type :=
  | CallSet (key : K) (value : V)
  | CallGet (key : K)
  | CallHas (key : K)
  | CallDelete (key : K)
  | CallClear
  | CallSize
  | CallEntries
  | CallKeys
  | CallValues.

Inductive returned : Type :=
  | RetThis
  | RetUndefined
  | RetValue (v : option V)
  | RetBoolean (b : bool)
  | RetNumber (n : nat)
  | RetEntries (l : list (K * V))
  | RetKeys (l : list K)
  | RetValues (l : list V).

Definition invoke (c : call) (this : t) : completion (returned * t) :=
  match c with
  | CallSet key value => Normal (RetThis, set key value this)
  | CallGet key => Normal (RetValue (get key this), this)
  | CallHas key => Normal (RetBoolean (has key this), this)
  | CallDelete key => let '(b, this') := delete key this in Normal (RetBoolean b, this')
  | CallClear => Normal (RetUndefined, clear this)
  | CallSize => Normal (RetNumber (size this), this)
  | CallEntries => Normal (RetEntries (entries this), this)
  | CallKeys => Normal (RetKeys (keys this), this)
  | CallValues => Normal (RetValues (values this), this)
  end.

(** One [set] call per entry, in order. *)
Definition SetCommands (kvs : list (K * V)) : list command :=
  (λ e, SetCommand e.1 e.2) <$> kvs.

(** *** The reference model of the specification

    An explicit queue of the live keys with their values, oldest first.  A
    new key goes to the back; when adding it would make the queue longer
    than [N], the head is dropped first.  An existing key keeps its place
    and takes the new value; a deleted key leaves the queue. *)
Definition Queue : Type := list (K * V).

Definition Queue_set (N : Q) (q : Queue) (k : K) (v : V) : Queue :=
  if bool_decide (k ∈ q.*1) then
    (λ e, if decide (e.1 = k) then (e.1, v) else e) <$> q
  else
    (if Qlt_le_dec N (inject_Z (Z.of_nat (length q) + 1)) then tail q else q)
      ++ [(k, v)].

Definition Queue_delete (q : Queue) (k : K) : Queue :=
  filter (λ e, e.1 ≠ k) q.

Definition Queue_run (N : Q) (c : command) (q : Queue) : Queue :=
  match c with
  | SetCommand k v => Queue_set N q k v
  | DeleteCommand k => Queue_delete q k
  | ClearCommand => []
  end.

Definition Queue_modelRun (N : Q) (cmds : list command) (q : Queue) : Queue :=
  foldl (λ q c, Queue_run N c q) q cmds.

(** The number of entries the object holds at most: [maxSize] rounded up. *)
Definition capacity (r : t) : Z :=
  match maxSize r with
  | Finite x => Qceiling x
  | _ => 0
  end.

(** *** Invariants of the object *)

(** The iterator has not returned, and every record before its index is
    blank. *)
Definition cursor_ok (it : MapIterator) (m : Map K V) : Prop :=
  exhausted it = false ∧ ∃ m', m = replicate (index it) None ++ m'.

(** What the constructor establishes and every method keeps: [maxSize] is
    finite and at least 1, the iterator is in order, and no key has two
    live records. *)
Definition wf (r : t) : Prop :=
  (∃ x, maxSize r = Finite x ∧ (1 <= x)%Q)
  ∧ cursor_ok (keysIterator r) (map r)
  ∧ NoDup (keys r).

End Class.

Arguments t K V : clear implicits, assert.
Arguments command K V : clear implicits, assert.
Arguments call K V : clear implicits, assert.
Arguments returned K V : clear implicits, assert.
Arguments Queue K V : clear implicits, assert.

(** *** Concrete keys and objects for the scenarios *)

Definition ka : jskey := KString "a".
Definition kb : jskey := KString "b".
Definition kc : jskey := KString "c".
Definition kd : jskey := KString "d".

(** The object [new SizeLimitedMap(x)] for an accepted [x]. *)
Definition fresh (x : Q) : t jskey Z :=
  {| maxSize := Finite x; map := []; keysIterator := Map_keys_iterator |}.

(** The calls of the two scenarios of the test suite, capacity 3 and
    capacity 1. *)
Definition scenario3 : list (command jskey Z) :=
  [SetCommand ka 1; SetCommand kb 2; SetCommand kc 3; SetCommand kd 4]%Z.

Definition scenario1 : list (command jskey Z) :=
  [SetCommand ka 1; SetCommand kb 2; DeleteCommand kb;
   SetCommand kc 2; SetCommand kd 2]%Z.

(** A mixed run: a key is deleted and later set again. *)
Definition scenario_mixed : list (command jskey Z) :=
  [SetCommand ka 1; SetCommand kb 2; DeleteCommand ka;
   SetCommand kc 3; SetCommand kd 4; SetCommand ka 5]%Z.

(** *** forEach

    [forEach(cb, thisArg)] binds [cb] to [thisArg] and hands
    [(v, k) => cbBound(v, k, this)] to the [forEach] of the underlying map.
    That one walks the records by index, skips the blank ones, and reads
    the number of records again after each call, so records the callback
    adds are visited too and the walk need not end: the loop takes fuel,
    and [None] says the fuel ran out. *)

Section ForEach.
Context {K : Type} `{!JSKey K} {V St : Type}.

(** A callback gets the value, the key and the container; it may call the
    container's methods, and it returns or throws.  [St] is the rest of
    the program's state it reads and writes; the receiver [thisArg] is
    part of the callback. *)
Definition callbackfn : Type := V → K → t K V → St → completion St * t K V.

Fixpoint forEach_from (fuel index : nat) (cb : callbackfn) (this : t K V) (s : St)
  : option (completion St * t K V) :=
  match fuel with
  | 0 => None
  | S fuel' =>
      match map this !! index with
      | None => Some (Normal s, this)
      | Some None => forEach_from fuel' (S index) cb this s
      | Some (Some (k, v)) =>
          match cb v k this s with
          | (Normal s', this') => forEach_from fuel' (S index) cb this' s'
          | (Throw e, this') => Some (Throw e, this')
          end
      end
  end.

Definition forEach (fuel : nat) (cb : callbackfn) (this : t K V) (s : St)
  : option (completion St * t K V) :=
  forEach_from fuel 0 cb this s.

(** Calling [f] on a list of entries in order, up to the first throw. *)
Fixpoint visit (f : V → K → St → completion St) (es : list (K * V)) (s : St)
  : completion St :=
  match es with
  | [] => Normal s
  | (k, v) :: es' =>
      match f v k s with
      | Normal s' => visit f es' s'
      | Throw e => Throw e
      end
  end.

(** [[...it]]: the keys an iterator yields until it is done, the map
    being left alone meanwhile. *)
Fixpoint MapIterator_drain (fuel : nat) (it : MapIterator) (m : Map K V)
  : list K :=
  match fuel with
  | 0 => []
  | S fuel' =>
      match MapIterator_next it m with
      | (mkIteratorResult k false, it') => k :: MapIterator_drain fuel' it' m
      | (mkIteratorResult _ true, _) => []
      end
  end.

End ForEach.

Arguments callbackfn K V St : clear implicits, assert.

(** *** The model test of [src/index.test.ts] *)

(** [a <= b] on numbers. *)
Definition number_le (a b : number) : bool :=
  match a, b with
  | NaN, _ | _, NaN => false
  | _, _ => negb (number_lt b a)
  end.

Module Test.

Section Commands.
Context {K : Type} `{!JSKey K} {V : Type} `{!EqDecision V}.

Record Model : Type := mkModel { maxSize : number }.

(** [assert.ok] and [assert.strictEqual] throw when the check fails. *)
Definition assert_ok (b : bool) (message : string) : completion unit :=
  if b then Normal tt else Throw (mkError message).

(** [SetCommand(k, v).run(m, r)]. *)
Definition SetCommand_run (k : K) (v : V) (m : Model) (r : t K V)
  : completion (t K V) :=
  let r := set k v r in
  match assert_ok (number_le (number_of_nat (size r)) (maxSize m))
          "Size limit exceeded." with
  | Throw e => Throw e
  | Normal _ =>
      match assert_ok (has k r) "Key not set." with
      | Throw e => Throw e
      | Normal _ =>
          match assert_ok (bool_decide (get k r = Some v))
                  "Key had wrong value." with
          | Throw e => Throw e
          | Normal _ => Normal r
          end
      end
  end.

(** [DeleteCommand(k).run(_m, r)]. *)
Definition DeleteCommand_run (k : K) (m : Model) (r : t K V)
  : completion (t K V) :=
  let size0 := size r in
  let '(deleted, r) := delete k r in
  match assert_ok
          (bool_decide (Z.of_nat (size r)
                        = if deleted then (Z.of_nat size0 - 1)%Z
                          else Z.of_nat size0))
          "Size mismatch." with
  | Throw e => Throw e
  | Normal _ =>
      match assert_ok (negb (has k r)) "Key not deleted." with
      | Throw e => Throw e
      | Normal _ => Normal r
      end
  end.

(** The commands the test generates: [allCommands]. *)
Inductive Command : Type :=
  | Set_ (k : K) (v : V)
  | Delete_ (k : K).

Definition Command_run (c : Command) (m : Model) (r : t K V)
  : completion (t K V) :=
  match c with
  | Set_ k v => SetCommand_run k v m r
  | Delete_ k => DeleteCommand_run k m r
  end.

(** The same command as a plain call, without the assertions. *)
Definition Command_call (c : Command) : command K V :=
  match c with
  | Set_ k v => SetCommand k v
  | Delete_ k => DeleteCommand k
  end.

(** [fc.modelRun]: every command's [check] is [true], so each one runs in
    turn until one throws. *)
Fixpoint fc_modelRun (m : Model) (cmds : list Command) (r : t K V)
  : completion (t K V) :=
  match cmds with
  | [] => Normal r
  | c :: cmds' =>
      match Command_run c m r with
      | Normal r' => fc_modelRun m cmds' r'
      | Throw e => Throw e
      end
  end.

(** The property that [fc.assert] checks for a generated [size] and
    [cmds]. *)
Definition property (size : number) (cmds : list Command)
  : completion (t K V) :=
  match constructor (JSNumber size) None with
  | Normal real => fc_modelRun {| maxSize := size |} cmds real
  | Throw e => Throw e
  end.

End Commands.

Arguments Command K V : clear implicits, assert.

End Test.

(** ** Facts about the built-in Map *)

Section MapFacts.
Context {K : Type} `{!JSKey K} {V : Type}.
Implicit Types (m : Map K V) (k key : K) (v : V) (n i : nat).

Lemma Map_entries_cons_None m : Map_entries (None :: m) = Map_entries m.
Proof. done. Qed.

Lemma Map_entries_cons_Some k v m :
  Map_entries (Some (k, v) :: m) = (k, v) :: Map_entries m.
Proof. done. Qed.

Lemma Map_entries_blank n m :
  Map_entries (replicate n None ++ m) = Map_entries m.
Proof. by induction n. Qed.

Lemma Map_has_blank n m k : Map_has (replicate n None ++ m) k = Map_has m k.
Proof. by induction n. Qed.

Lemma Map_set_blank n m k v :
  Map_set (replicate n None ++ m) k v = replicate n None ++ Map_set m k v.
Proof. induction n as [|n IH]; [done|]. simpl. by rewrite IH. Qed.

Lemma Map_delete_blank n m k :
  (Map_delete (replicate n None ++ m) k).2
  = replicate n None ++ (Map_delete m k).2.
Proof.
  induction n as [|n IH]; [done|]. simpl.
  destruct (Map_delete (replicate n None ++ m) k) as [b m'] eqn:E.
  simpl in *. by rewrite IH.
Qed.

Lemma Map_clear_blank n m :
  Map_clear (replicate n None ++ m) = replicate n None ++ Map_clear m.
Proof.
  unfold Map_clear. rewrite fmap_app, fmap_replicate. done.
Qed.

Lemma Map_entries_clear m : Map_entries (Map_clear m) = [].
Proof. by induction m. Qed.

Lemma Map_has_keys m k : Map_has m k = bool_decide (k ∈ Map_keys m).
Proof.
  induction m as [|[[k' v']|] m IH]; simpl.
  - done.
  - unfold Map_keys. rewrite Map_entries_cons_Some. simpl.
    destruct (decide (k' = k)) as [->|Hk].
    + symmetry. apply bool_decide_eq_true. left.
    + rewrite IH. apply bool_decide_ext. unfold Map_keys.
      rewrite elem_of_cons. split; [by right|]. by intros [->|?].
  - done.
Qed.

Lemma Map_has_true m k : Map_has m k = true ↔ k ∈ Map_keys m.
Proof. rewrite Map_has_keys. apply bool_decide_eq_true. Qed.

Lemma Map_has_false m k : Map_has m k = false ↔ k ∉ Map_keys m.
Proof. rewrite Map_has_keys. apply bool_decide_eq_false. Qed.

Lemma Map_has_get m k : Map_has m k = bool_decide (is_Some (Map_get m k)).
Proof.
  induction m as [|[[k' v']|] m IH]; simpl; [done| |done].
  destruct (decide (k' = k)); [|done]. symmetry. apply bool_decide_eq_true. eauto.
Qed.

Lemma Map_get_entries m k v :
  NoDup (Map_keys m) → Map_get m k = Some v ↔ (k, v) ∈ Map_entries m.
Proof.
  unfold Map_keys.
  induction m as [|[[k' v']|] m IH]; simpl; intros Hnd.
  - split; [done|]. by intros ?%elem_of_nil.
  - rewrite Map_entries_cons_Some in *. simpl in Hnd.
    apply NoDup_cons in Hnd as [Hk' Hnd]. rewrite elem_of_cons.
    destruct (decide (k' = k)) as [->|Hk].
    + split; [intros [= ->]; by left|].
      intros [[= ->]|Hin]; [done|]. exfalso. apply Hk'.
      apply list_elem_of_fmap. by exists (k, v).
    + rewrite IH by done. split; [by right|]. intros [[= -> ->]|]; done.
  - rewrite Map_entries_cons_None in *. by apply IH.
Qed.

Lemma Map_delete_has m k : (Map_delete m k).1 = Map_has m k.
Proof.
  induction m as [|[[k' v']|] m IH]; simpl; [done| |].
  - destruct (decide (k' = k)); [done|]. by destruct (Map_delete m k).
  - by destruct (Map_delete m k).
Qed.

(** What [set] does to the live entries: an existing key keeps its place,
    a new one goes to the end. *)
Lemma Map_entries_set_present m k v :
  NoDup (Map_keys m) → k ∈ Map_keys m →
  Map_entries (Map_set m k v)
  = (λ e, if decide (e.1 = k) then (e.1, v) else e) <$> Map_entries m.
Proof.
  unfold Map_keys.
  induction m as [|[[k' v']|] m IH]; intros Hnd Hin.
  - by apply elem_of_nil in Hin.
  - rewrite Map_entries_cons_Some in *. cbn [fmap list_fmap fst] in *.
    apply NoDup_cons in Hnd as [Hk' Hnd]. cbn [Map_set].
    destruct (decide (k' = k)) as [->|Hk].
    + rewrite Map_entries_cons_Some. f_equal.
      symmetry. erewrite list_fmap_ext; [apply list_fmap_id|].
      intros i [k1 v1] Hi. simpl. destruct (decide (k1 = k)) as [->|]; [|done].
      exfalso. apply Hk'. apply list_elem_of_fmap. exists (k, v1).
      split; [done|]. by eapply list_elem_of_lookup_2.
    + rewrite Map_entries_cons_Some. f_equal. apply IH; [done|].
      apply elem_of_cons in Hin as [->|]; done.
  - rewrite Map_entries_cons_None in *. cbn [Map_set].
    rewrite Map_entries_cons_None. by apply IH.
Qed.

Lemma Map_entries_set_absent m k v :
  k ∉ Map_keys m → Map_entries (Map_set m k v) = Map_entries m ++ [(k, v)].
Proof.
  unfold Map_keys.
  induction m as [|[[k' v']|] m IH]; intros Hin.
  - done.
  - rewrite Map_entries_cons_Some in *. cbn [fmap list_fmap fst] in *.
    apply not_elem_of_cons in Hin as [Hk Hin]. cbn [Map_set].
    destruct (decide (k' = k)) as [->|_]; [done|].
    rewrite Map_entries_cons_Some. cbn [app]. f_equal. by apply IH.
  - rewrite Map_entries_cons_None in *. cbn [Map_set].
    rewrite Map_entries_cons_None. by apply IH.
Qed.

Lemma Map_keys_set_present m k v :
  k ∈ Map_keys m → Map_keys (Map_set m k v) = Map_keys m.
Proof.
  unfold Map_keys.
  induction m as [|[[k' v']|] m IH]; intros Hin.
  - by apply elem_of_nil in Hin.
  - rewrite Map_entries_cons_Some in *. cbn [fmap list_fmap fst] in *.
    cbn [Map_set]. destruct (decide (k' = k)) as [->|Hk].
    + by rewrite Map_entries_cons_Some.
    + rewrite Map_entries_cons_Some. cbn [fmap list_fmap fst]. f_equal.
      apply IH. apply elem_of_cons in Hin as [->|]; done.
  - rewrite Map_entries_cons_None in *. cbn [Map_set].
    rewrite Map_entries_cons_None. by apply IH.
Qed.

Lemma Map_keys_set_absent m k v :
  k ∉ Map_keys m → Map_keys (Map_set m k v) = Map_keys m ++ [k].
Proof.
  intros Hk. unfold Map_keys. rewrite Map_entries_set_absent by done.
  by rewrite fmap_app.
Qed.

Lemma Map_set_NoDup m k v : NoDup (Map_keys m) → NoDup (Map_keys (Map_set m k v)).
Proof.
  intros Hnd. destruct (decide (k ∈ Map_keys m)) as [Hin|Hin].
  - by rewrite Map_keys_set_present.
  - rewrite Map_keys_set_absent by done. apply NoDup_app.
    split_and!; [done| |apply NoDup_singleton].
    intros x Hx ->%list_elem_of_singleton. done.
Qed.

Lemma filter_other_keys (l : list (K * V)) k :
  k ∉ l.*1 → filter (λ e, e.1 ≠ k) l = l.
Proof.
  induction l as [|[k' v'] l IH]; [done|]. cbn [fmap list_fmap fst].
  intros [Hk Hl]%not_elem_of_cons.
  rewrite filter_cons_True by (simpl; auto). f_equal. by apply IH.
Qed.

(** What [delete] does to the live entries. *)
Lemma Map_entries_delete m k :
  NoDup (Map_keys m) →
  Map_entries (Map_delete m k).2 = filter (λ e, e.1 ≠ k) (Map_entries m).
Proof.
  unfold Map_keys.
  induction m as [|[[k' v']|] m IH]; intros Hnd.
  - done.
  - rewrite Map_entries_cons_Some in *. cbn [fmap list_fmap fst] in *.
    apply NoDup_cons in Hnd as [Hk' Hnd]. cbn [Map_delete].
    destruct (decide (k' = k)) as [->|Hk].
    + cbn [snd]. rewrite Map_entries_cons_None.
      rewrite filter_cons_False by (simpl; auto).
      symmetry. by apply filter_other_keys.
    + specialize (IH Hnd). destruct (Map_delete m k) as [b m'].
      cbn [snd] in *. rewrite Map_entries_cons_Some, IH.
      by rewrite filter_cons_True.
  - rewrite Map_entries_cons_None in *. cbn [Map_delete].
    specialize (IH Hnd). destruct (Map_delete m k) as [b m'].
    cbn [snd] in *. by rewrite Map_entries_cons_None.
Qed.

Lemma Map_delete_NoDup m k :
  NoDup (Map_keys m) → NoDup (Map_keys (Map_delete m k).2).
Proof.
  intros Hnd. unfold Map_keys. rewrite Map_entries_delete by done.
  apply (NoDup_fmap_2_strong fst).
  - intros [k1 v1] [k2 v2] H1%list_elem_of_filter H2%list_elem_of_filter.
    simpl. intros ->. f_equal.
    destruct H1 as [_ H1], H2 as [_ H2].
    apply (Map_get_entries m) in H1, H2; [|done..]. congruence.
  - apply NoDup_filter. eapply NoDup_fmap_1, Hnd.
Qed.

Lemma Map_delete_absent m k : Map_has m k = false → Map_delete m k = (false, m).
Proof.
  induction m as [|[[k' v']|] m IH]; simpl; [done| |].
  - destruct (decide (k' = k)); [done|]. intros H. by rewrite IH.
  - intros H. by rewrite IH.
Qed.

(** Reading after [set] and [delete]. *)
Lemma Map_get_set_eq m k v : Map_get (Map_set m k v) k = Some v.
Proof.
  induction m as [|[[k' v']|] m IH]; simpl.
  - by rewrite decide_True.
  - destruct (decide (k' = k)) as [->|Hk]; simpl.
    + by rewrite decide_True.
    + by rewrite decide_False.
  - done.
Qed.

Lemma Map_get_set_ne m k v k' : k ≠ k' → Map_get (Map_set m k v) k' = Map_get m k'.
Proof.
  intros Hne. induction m as [|[[k1 v1]|] m IH]; simpl.
  - by rewrite decide_False.
  - destruct (decide (k1 = k)) as [->|Hk]; simpl.
    + by rewrite !decide_False.
    + by rewrite IH.
  - done.
Qed.

Lemma Map_get_delete_ne m k k' :
  k ≠ k' → Map_get (Map_delete m k).2 k' = Map_get m k'.
Proof.
  intros Hne. induction m as [|[[k1 v1]|] m IH]; simpl; [done| |].
  - destruct (decide (k1 = k)) as [->|Hk]; simpl.
    + by rewrite decide_False.
    + destruct (Map_delete m k) as [b m']. simpl in *. by rewrite IH.
  - destruct (Map_delete m k) as [b m']. simpl in *. by rewrite IH.
Qed.

Lemma Map_get_clear m k : Map_get (Map_clear m) k = None.
Proof. by induction m. Qed.

Lemma Map_has_delete_eq m k :
  NoDup (Map_keys m) → Map_has (Map_delete m k).2 k = false.
Proof.
  intros Hnd. apply Map_has_false. unfold Map_keys.
  rewrite Map_entries_delete by done.
  intros ([k1 v1] & -> & [Hne _]%list_elem_of_filter)%list_elem_of_fmap. done.
Qed.

(** *** The iterator *)

Lemma MapData_scan_spec m i :
  match Map_entries m with
  | [] => MapData_scan m i = None
  | (k, v) :: es =>
      ∃ j m', m = replicate j None ++ Some (k, v) :: m'
              ∧ MapData_scan m i = Some (k, i + j + 1)
              ∧ Map_entries m' = es
  end.
Proof.
  revert i. induction m as [|[[k' v']|] m IH]; intros i.
  - done.
  - rewrite Map_entries_cons_Some. exists 0, m. simpl.
    split_and!; [done| |done]. do 2 f_equal. lia.
  - rewrite Map_entries_cons_None. specialize (IH (S i)).
    destruct (Map_entries m) as [|[k v] es]; [done|].
    destruct IH as (j & m' & -> & Hscan & Hes).
    exists (S j), m'. simpl. rewrite Hscan.
    split_and!; [done| |done]. do 2 f_equal. lia.
Qed.

(** Under the invariant the iterator yields the oldest live key; deleting
    that key removes the head of the live entries and re-establishes the
    invariant.  With no live entry the iterator returns. *)
Lemma MapIterator_next_oldest it m :
  cursor_ok it m →
  match Map_entries m with
  | [] => (MapIterator_next it m).1 = {| value := undefined; done := true |}
  | (k, v) :: es =>
      ∃ it', MapIterator_next it m = ({| value := k; done := false |}, it')
             ∧ cursor_ok it' (Map_delete m k).2
             ∧ Map_delete m k = (true, (Map_delete m k).2)
             ∧ Map_entries (Map_delete m k).2 = es
  end.
Proof.
  intros [Hex [m0 Hm]]. unfold MapIterator_next. rewrite Hex.
  assert (drop (index it) m = m0) as ->.
  { rewrite Hm. rewrite drop_app_length'; [done|]. by rewrite length_replicate. }
  assert (Map_entries m = Map_entries m0) as ->.
  { by rewrite Hm, Map_entries_blank. }
  pose proof (MapData_scan_spec m0 (index it)) as Hscan.
  destruct (Map_entries m0) as [|[k v] es]; [by rewrite Hscan|].
  destruct Hscan as (j & m' & -> & -> & Hes).
  eexists. split; [done|].
  assert (Map_delete (Some (k, v) :: m') k = (true, None :: m')) as Hd.
  { simpl. by rewrite decide_True. }
  assert ((Map_delete m k).2 = replicate (index it + j + 1) None ++ m') as Hm'.
  { rewrite Hm, !Map_delete_blank, Hd. cbn [snd].
    rewrite !replicate_add. rewrite <- !(assoc_L (++)). done. }
  split_and!.
  - split; [done|]. by exists m'.
  - apply injective_projections; [|done]. cbn [fst].
    rewrite Map_delete_has, Hm, !Map_has_blank. simpl. by rewrite decide_True.
  - by rewrite Hm', Map_entries_blank.
Qed.

Lemma cursor_ok_set it m k v : cursor_ok it m → cursor_ok it (Map_set m k v).
Proof.
  intros [Hex [m0 ->]]. split; [done|]. rewrite Map_set_blank. eauto.
Qed.

Lemma cursor_ok_delete it m k : cursor_ok it m → cursor_ok it (Map_delete m k).2.
Proof.
  intros [Hex [m0 ->]]. split; [done|]. rewrite Map_delete_blank. eauto.
Qed.

Lemma cursor_ok_clear it m : cursor_ok it m → cursor_ok it (Map_clear m).
Proof.
  intros [Hex [m0 ->]]. split; [done|]. rewrite Map_clear_blank. eauto.
Qed.

Lemma cursor_ok_new (m : Map K V) : cursor_ok Map_keys_iterator m.
Proof. split; [done|]. by exists m. Qed.

Lemma Map_new_NoDup (es : option (list (K * V))) : NoDup (Map_keys (Map_new es)).
Proof.
  unfold Map_new. generalize (default [] es). intros l.
  assert (NoDup (Map_keys ([] : Map K V))) as H by apply NoDup_nil_2.
  revert H. generalize ([] : Map K V).
  induction l as [|[k v] l IH]; intros m Hm; [done|].
  simpl. apply IH. by apply Map_set_NoDup.
Qed.

End MapFacts.

(** ** Facts about the class *)

Section ClassFacts.
Context {K : Type} `{!JSKey K} {V : Type}.
Implicit Types (r this : t K V) (k key : K) (v : V) (c N : Z)
  (cmd : command K V) (cmds : list (command K V)) (q : Queue K V).

(** The constructor accepts every integer from 1 on. *)
Lemma constructor_integral c (es : option (list (K * V))) :
  (1 ≤ c)%Z →
  constructor (JSNumber (number_of_Z c)) es
  = Normal {| maxSize := number_of_Z c;
              map := Map_new es;
              keysIterator := Map_keys_iterator |}.
Proof.
  intros Hc. unfold constructor, number_of_Z, number_lt. simpl.
  destruct (Qlt_le_dec _ _) as [Hlt|Hle]; [|done].
  exfalso. change 1%Q with (inject_Z 1) in Hlt. rewrite <- Zlt_Qlt in Hlt. lia.
Qed.

(** What an accepted [maxSize] looks like. *)
Lemma constructor_Normal mx (es : option (list (K * V))) r :
  constructor mx es = Normal r →
  ∃ x, mx = JSNumber (Finite x) ∧ (1 <= x)%Q
       ∧ r = {| maxSize := Finite x; map := Map_new es;
                keysIterator := Map_keys_iterator |}.
Proof.
  unfold constructor, number_lt. destruct mx as [| | | |[| | |x]|]; try done.
  simpl. destruct (Qlt_le_dec _ _) as [Hlt|Hle]; [done|].
  intros [= <-]. eauto.
Qed.

Lemma maxSize_set k v r : maxSize (set k v r) = maxSize r.
Proof.
  unfold set. destruct (Map_has _ _); [done|].
  destruct (number_ge _ _); [|done].
  by destruct (MapIterator_next _ _) as [[??]?].
Qed.

Lemma maxSize_run cmd r : maxSize (run cmd r) = maxSize r.
Proof.
  destruct cmd; simpl; [apply maxSize_set| |done].
  unfold delete. by destruct (Map_delete _ _).
Qed.

Lemma maxSize_modelRun cmds r : maxSize (modelRun cmds r) = maxSize r.
Proof.
  revert r. induction cmds as [|cmd cmds IH]; intros r; [done|].
  unfold modelRun in *. simpl. by rewrite IH, maxSize_run.
Qed.

Lemma delete_snd k r :
  (delete k r).2 = {| maxSize := maxSize r; map := (Map_delete (map r) k).2;
                      keysIterator := keysIterator r |}.
Proof. unfold delete. by destruct (Map_delete _ _). Qed.

Lemma delete_fst k r : (delete k r).1 = has k r.
Proof.
  unfold delete, has. rewrite <- Map_delete_has. by destruct (Map_delete _ _).
Qed.

Lemma number_ge_empty x : (1 <= x)%Q → number_ge (number_of_nat 0) (Finite x) = false.
Proof.
  intros Hx. unfold number_ge, number_of_nat, number_lt.
  destruct (Qlt_le_dec _ _) as [Hlt|Hle]; [done|]. exfalso.
  change (inject_Z (Z.of_nat 0)) with 0%Q in Hle.
  apply (Qle_not_lt _ _ (Qle_trans _ _ _ Hx Hle)). reflexivity.
Qed.

(** [set] on a new key of a well-formed object: the branch that evicts
    removes the oldest live entry; the iterator is never done there. *)
Lemma set_absent_entries k v r :
  wf r → has k r = false →
  wf (set k v r) ∧
  entries (set k v r)
  = (if number_ge (number_of_nat (size r)) (maxSize r)
     then tail (entries r) else entries r) ++ [(k, v)].
Proof.
  intros ([x [Hmx Hx]] & Hc & Hnd) Hk. unfold has in Hk.
  pose proof Hk as Hk'%Map_has_false.
  pose proof (MapIterator_next_oldest _ _ Hc) as Hnext.
  unfold set, entries, size, wf, keys, Map_size in *. rewrite Hk.
  destruct (Map_entries (map r)) as [|[k0 v0] es] eqn:Hes.
  - rewrite Hmx. cbn [length]. rewrite number_ge_empty by done. simpl.
    split_and!; [eauto|by apply cursor_ok_set|by apply Map_set_NoDup|].
    by rewrite Map_entries_set_absent, Hes.
  - destruct Hnext as (it' & -> & Hc' & Hd & Hes').
    destruct (number_ge _ _); simpl.
    + assert (NoDup (Map_keys (Map_delete (map r) k0).2)
              ∧ k ∉ Map_keys (Map_delete (map r) k0).2) as [Hnd' Hk''].
      { unfold Map_keys in *. rewrite Hes' in *. rewrite Hes in Hnd, Hk'.
        cbn [fmap list_fmap fst] in *.
        apply NoDup_cons in Hnd as [_ ?]. apply not_elem_of_cons in Hk' as [_ ?].
        done. }
      split_and!; [eauto|by apply cursor_ok_set|by apply Map_set_NoDup|].
      by rewrite Map_entries_set_absent, Hes'.
    + split_and!; [eauto|by apply cursor_ok_set|by apply Map_set_NoDup|].
      by rewrite Map_entries_set_absent, Hes.
Qed.

Lemma set_present_entries k v r :
  wf r → has k r = true →
  wf (set k v r) ∧
  entries (set k v r)
  = (λ e, if decide (e.1 = k) then (e.1, v) else e) <$> entries r.
Proof.
  intros (Hmx & Hc & Hnd) Hk. unfold has in Hk.
  unfold set, entries, wf, keys in *. rewrite Hk. apply Map_has_true in Hk. simpl.
  split_and!; [done|by apply cursor_ok_set|by apply Map_set_NoDup|].
  by apply Map_entries_set_present.
Qed.

Lemma wf_set k v r : wf r → wf (set k v r).
Proof.
  intros Hwf. destruct (has k r) eqn:Hk.
  - by apply set_present_entries.
  - by apply set_absent_entries.
Qed.

Lemma wf_delete k r : wf r → wf (delete k r).2.
Proof.
  intros (Hmx & Hc & Hnd). rewrite delete_snd. unfold wf, keys in *. simpl.
  split_and!; [done|by apply cursor_ok_delete|by apply Map_delete_NoDup].
Qed.

Lemma wf_clear r : wf r → wf (clear r).
Proof.
  intros (Hmx & Hc & Hnd). unfold wf, keys, clear in *. simpl.
  split_and!; [done|by apply cursor_ok_clear|].
  unfold Map_keys. rewrite Map_entries_clear. apply NoDup_nil_2.
Qed.

Lemma wf_run cmd r : wf r → wf (run cmd r).
Proof. destruct cmd; simpl; auto using wf_set, wf_delete, wf_clear. Qed.

Lemma wf_modelRun cmds r : wf r → wf (modelRun cmds r).
Proof.
  revert r. induction cmds as [|cmd cmds IH]; intros r Hwf; [done|].
  unfold modelRun in *. simpl. by apply IH, wf_run.
Qed.

Lemma wf_constructor mx (es : option (list (K * V))) r :
  constructor mx es = Normal r → wf r.
Proof.
  intros (x & -> & Hx & ->)%constructor_Normal. unfold wf, keys. simpl.
  split_and!; [eauto|apply cursor_ok_new|apply Map_new_NoDup].
Qed.

Lemma entries_constructor_empty mx r :
  constructor mx None = Normal r → entries r = [].
Proof. by intros (x & -> & Hx & ->)%constructor_Normal. Qed.

End ClassFacts.

(** ** The class against the reference model *)

Section Simulation.
Context {K : Type} `{!JSKey K} {V : Type}.
Implicit Types (r this : t K V) (k key : K) (v : V) (c N : Z)
  (cmd : command K V) (cmds : list (command K V)) (q : Queue K V)
  (kvs : list (K * V)).

Lemma capacity_run cmd r : capacity (run cmd r) = capacity r.
Proof. unfold capacity. by rewrite maxSize_run. Qed.

Lemma capacity_integral c r : maxSize r = number_of_Z c → capacity r = c.
Proof. unfold capacity. intros ->. apply Qceiling_Z. Qed.

Lemma capacity_pos r : wf r → (1 ≤ capacity r)%Z.
Proof.
  intros ([x [Hmx Hx]] & _). unfold capacity. rewrite Hmx.
  change 1%Z with (Qceiling 1). by apply Qceiling_resp_le.
Qed.

(** The test [size >= maxSize] compares the size with [maxSize] rounded
    up. *)
Lemma full_capacity r n :
  wf r →
  number_ge (number_of_nat n) (maxSize r) = bool_decide (capacity r ≤ Z.of_nat n)%Z.
Proof.
  intros ([x [Hmx Hx]] & _). unfold capacity. rewrite Hmx.
  unfold number_ge, number_of_nat, number_lt.
  destruct (Qlt_le_dec _ _) as [Hlt|Hle]; simpl; symmetry.
  - apply bool_decide_eq_false. intros Hc. apply (Qlt_not_le _ _ Hlt).
    eapply Qle_trans; [apply Qle_ceiling|]. by rewrite <- Zle_Qle.
  - apply bool_decide_eq_true. rewrite <- (Qceiling_Z (Z.of_nat n)).
    by apply Qceiling_resp_le.
Qed.

Lemma Queue_exceeds N n :
  (if Qlt_le_dec (inject_Z N) (inject_Z (Z.of_nat n + 1)) then true else false)
  = bool_decide (N ≤ Z.of_nat n)%Z.
Proof.
  destruct (Qlt_le_dec _ _) as [Hlt|Hle]; symmetry.
  - apply bool_decide_eq_true. rewrite <- Zlt_Qlt in Hlt. lia.
  - apply bool_decide_eq_false. rewrite <- Zle_Qle in Hle. lia.
Qed.

(** One call of the class is one step of the queue whose bound is the
    capacity. *)
Lemma run_refines cmd r :
  wf r → entries (run cmd r) = Queue_run (inject_Z (capacity r)) cmd (entries r).
Proof.
  intros Hwf. destruct cmd as [k v|k|]; simpl.
  - unfold Queue_set. destruct (has k r) eqn:Hk.
    + destruct (set_present_entries k v r Hwf Hk) as [_ ->].
      apply Map_has_true in Hk. by rewrite bool_decide_eq_true_2.
    + destruct (set_absent_entries k v r Hwf Hk) as [_ ->].
      apply Map_has_false in Hk. rewrite bool_decide_eq_false_2 by done.
      rewrite full_capacity by done.
      pose proof (Queue_exceeds (capacity r) (length (entries r))) as Hq.
      unfold size, Map_size, entries in *.
      destruct (Qlt_le_dec _ _); by rewrite <- Hq.
  - rewrite delete_snd. destruct Hwf as (_ & _ & Hnd).
    by apply Map_entries_delete.
  - apply Map_entries_clear.
Qed.

Lemma modelRun_refines cmds r :
  wf r →
  entries (modelRun cmds r)
  = Queue_modelRun (inject_Z (capacity r)) cmds (entries r).
Proof.
  revert r. induction cmds as [|cmd cmds IH]; intros r Hwf; [done|].
  unfold modelRun, Queue_modelRun in *. simpl.
  rewrite IH by by apply wf_run. by rewrite capacity_run, run_refines.
Qed.

(** *** The queue in isolation *)

Lemma Queue_run_length N cmd q :
  (1 ≤ N)%Z → (Z.of_nat (length q) ≤ N)%Z →
  (Z.of_nat (length (Queue_run (inject_Z N) cmd q)) ≤ N)%Z.
Proof.
  intros HN Hq. destruct cmd as [k v|k|]; simpl; [| |lia].
  - unfold Queue_set. case_bool_decide.
    + by rewrite length_fmap.
    + pose proof (Queue_exceeds N (length q)) as Hx.
      destruct (Qlt_le_dec _ _); symmetry in Hx.
      * apply bool_decide_eq_true in Hx. rewrite length_app. simpl.
        destruct q; simpl in *; lia.
      * apply bool_decide_eq_false in Hx. rewrite length_app. simpl. lia.
  - unfold Queue_delete. etrans; [|exact Hq].
    apply Nat2Z.inj_le, length_filter.
Qed.

(** Distinct new keys: the queue ends up holding the last [N] of them. *)
Lemma Queue_SetCommands N kvs :
  (1 ≤ N)%Z → NoDup kvs.*1 →
  Queue_modelRun (inject_Z N) (SetCommands kvs) []
  = drop (length kvs - Z.to_nat N) kvs.
Proof.
  intros HN. induction kvs as [|[k v] kvs IH] using rev_ind; intros Hnd; [done|].
  rewrite fmap_app in Hnd. apply NoDup_app in Hnd as (Hnd & Hk & _).
  unfold Queue_modelRun, SetCommands in *.
  rewrite fmap_app, foldl_app, IH by done. simpl.
  unfold Queue_set. rewrite bool_decide_eq_false_2.
  2:{ intros Hin. apply (Hk k); [|by left].
      apply list_elem_of_fmap in Hin as (e & -> & He).
      apply list_elem_of_fmap. exists e. split; [done|].
      by eapply subseteq_drop. }
  pose proof (Queue_exceeds N (length (drop (length kvs - Z.to_nat N) kvs))) as Hx.
  rewrite length_drop in *. rewrite length_app. simpl.
  destruct (Qlt_le_dec _ _); symmetry in Hx.
  - apply bool_decide_eq_true in Hx.
    assert (Z.to_nat N ≤ length kvs) by lia.
    replace (length kvs + 1 - Z.to_nat N) with (S (length kvs - Z.to_nat N)) by lia.
    rewrite drop_app_le by lia.
    f_equal. generalize (length kvs - Z.to_nat N). clear.
    intros n. revert kvs. induction n as [|n IH]; intros [|e kvs]; simpl; done.
  - apply bool_decide_eq_false in Hx.
    replace (length kvs - Z.to_nat N) with 0 by lia.
    replace (length kvs + 1 - Z.to_nat N) with 0 by lia. by rewrite !drop_0.
Qed.

End Simulation.

(** ** Properties of the class *)

Section Properties.
Context {K : Type} `{!JSKey K} {V : Type}.
Implicit Types (r this : t K V) (k key : K) (v : V) (c N : Z)
  (cmd : command K V) (cmds : list (command K V)) (q : Queue K V)
  (kvs : list (K * V)).

Lemma size_entries r : size r = length (entries r).
Proof. done. Qed.

Lemma size_run_bound cmd r :
  wf r → (Z.of_nat (size r) ≤ capacity r)%Z →
  (Z.of_nat (size (run cmd r)) ≤ capacity r)%Z.
Proof.
  intros Hwf Hsz. rewrite size_entries, run_refines by done.
  apply Queue_run_length; [by apply capacity_pos|done].
Qed.

Lemma trace_bound cmds r :
  wf r → (Z.of_nat (size r) ≤ capacity r)%Z →
  Forall (λ r', (Z.of_nat (size r') ≤ capacity r)%Z) (trace cmds r).
Proof.
  revert r. induction cmds as [|cmd cmds IH]; intros r Hwf Hsz; simpl.
  - apply Forall_nil_2.
  - pose proof (size_run_bound cmd r Hwf Hsz) as Hsz'.
    apply Forall_cons. split; [done|].
    rewrite <- (capacity_run cmd r). apply IH; [by apply wf_run|].
    by rewrite capacity_run.
Qed.

(** The queue only looks at its bound through comparisons. *)
Lemma Queue_modelRun_Qeq (x y : Q) cmds q :
  (x == y)%Q → Queue_modelRun x cmds q = Queue_modelRun y cmds q.
Proof.
  intros Hxy. revert q. induction cmds as [|cmd cmds IH]; intros q; [done|].
  unfold Queue_modelRun in *. simpl. rewrite IH. f_equal.
  destruct cmd as [k v|k|]; simpl; [|done..].
  unfold Queue_set. case_bool_decide; [done|]. f_equal.
  destruct (Qlt_le_dec x _) as [H1|H1], (Qlt_le_dec y _) as [H2|H2]; try done.
  - rewrite Hxy in H1. by destruct (Qlt_not_le _ _ H1).
  - rewrite <- Hxy in H2. by destruct (Qlt_not_le _ _ H2).
Qed.

Lemma integral_ceiling (x : Q) N : (x == inject_Z N)%Q → Qceiling x = N.
Proof. intros ->. apply Qceiling_Z. Qed.

(** For every [maxSize] the constructor accepts, integral or not: after a
    construction without initial entries the size after every call of any
    sequence of [set], [delete] and [clear] calls is at most [maxSize]
    rounded up to an integer. *)
Lemma capacity_invariant_ceiling (x : Q) r0 cmds :
  constructor (JSNumber (Finite x)) None = Normal r0 →
  Forall (λ r, (Z.of_nat (size r) ≤ Qceiling x)%Z) (trace cmds r0)
  ∧ ∀ c, (x == inject_Z c)%Q →
         Forall (λ r, (Z.of_nat (size r) ≤ c)%Z) (trace cmds r0).
Proof.
  intros Hr0.
  assert (Forall (λ r, (Z.of_nat (size r) ≤ Qceiling x)%Z) (trace cmds r0)) as HF.
  { pose proof (wf_constructor _ _ _ Hr0) as Hwf.
    apply constructor_Normal in Hr0 as (x' & [= <-] & Hx & ->).
    apply (trace_bound cmds _ Hwf). simpl.
    pose proof (capacity_pos _ Hwf). unfold size, Map_size. simpl. lia. }
  split; [done|]. intros c Hc. by rewrite <- (integral_ceiling x c).
Qed.

(** For every [maxSize] the constructor accepts, integral or not: after a
    construction without initial entries any sequence of [set], [delete]
    and [clear] calls leaves the entries that the reference queue holds
    when its bound is [maxSize] rounded up. *)
Lemma model_equivalence_ceiling (x : Q) r0 cmds :
  constructor (JSNumber (Finite x)) None = Normal r0 →
  entries (modelRun cmds r0) = Queue_modelRun (inject_Z (Qceiling x)) cmds []
  ∧ (∀ k v, get k (modelRun cmds r0) = Some v
            ↔ (k, v) ∈ Queue_modelRun (inject_Z (Qceiling x)) cmds [])
  ∧ ((∃ N, (x == inject_Z N)%Q) →
     entries (modelRun cmds r0) = Queue_modelRun x cmds []).
Proof.
  intros Hr0. pose proof (wf_constructor _ _ _ Hr0) as Hwf.
  assert (entries (modelRun cmds r0)
          = Queue_modelRun (inject_Z (Qceiling x)) cmds []) as He.
  { rewrite modelRun_refines by done.
    by apply constructor_Normal in Hr0 as (x' & [= <-] & Hx & ->). }
  split_and!; [done| |].
  - intros k v. rewrite <- He. apply Map_get_entries.
    by apply (wf_modelRun cmds) in Hwf as (_ & _ & Hnd).
  - intros [N HN]. rewrite He. symmetry. apply Queue_modelRun_Qeq.
    by rewrite (integral_ceiling x N).
Qed.

(** C1.  For every integer capacity [c >= 1] the construction without
    initial entries succeeds, and after every call of any sequence of
    [set], [delete] and [clear] calls the size is at most [c]. *)
Theorem capacity_invariant c cmds :
  (1 ≤ c)%Z →
  ∃ r0 : t K V,
    constructor (JSNumber (number_of_Z c)) None = Normal r0
    ∧ Forall (λ r, (Z.of_nat (size r) ≤ c)%Z) (trace cmds r0).
Proof.
  intros Hc. eexists. split; [by apply constructor_integral|].
  match goal with |- Forall _ (trace _ ?r) => set (r0 := r) end.
  assert (wf r0) as Hwf.
  { eapply wf_constructor. by apply (constructor_integral c None). }
  assert (capacity r0 = c) as Hcap by by apply capacity_integral.
  rewrite <- Hcap. apply trace_bound; [done|].
  rewrite Hcap. unfold size, Map_size. simpl. lia.
Qed.

(** C3.  For every integer capacity [N >= 1] the construction without
    initial entries succeeds, and after any sequence of [set], [delete]
    and [clear] calls the entries of the container (its keys, their values
    and their order) are those of the reference queue with bound [N] after
    the same calls; [get] reads exactly what the queue holds. *)
Theorem model_equivalence N cmds :
  (1 ≤ N)%Z →
  ∃ r0 : t K V,
    constructor (JSNumber (number_of_Z N)) None = Normal r0
    ∧ entries (modelRun cmds r0) = Queue_modelRun (inject_Z N) cmds []
    ∧ keys (modelRun cmds r0) = (Queue_modelRun (inject_Z N) cmds []).*1
    ∧ values (modelRun cmds r0) = (Queue_modelRun (inject_Z N) cmds []).*2
    ∧ (∀ k v, get k (modelRun cmds r0) = Some v
              ↔ (k, v) ∈ Queue_modelRun (inject_Z N) cmds []).
Proof.
  intros HN. eexists. split; [by apply constructor_integral|].
  match goal with |- entries (modelRun _ ?r) = _ ∧ _ => set (r0 := r) end.
  assert (wf r0) as Hwf.
  { eapply wf_constructor. by apply (constructor_integral N None). }
  assert (entries (modelRun cmds r0) = Queue_modelRun (inject_Z N) cmds [])
    as He.
  { rewrite modelRun_refines by done.
    by rewrite (capacity_integral N r0). }
  split_and!; [done| | |].
  - unfold keys, Map_keys. fold (entries (modelRun cmds r0)). by rewrite He.
  - unfold values, Map_values. fold (entries (modelRun cmds r0)). by rewrite He.
  - intros k v. rewrite <- He. apply Map_get_entries.
    by apply (wf_modelRun cmds) in Hwf as (_ & _ & Hnd).
Qed.

(** *** Helpers for the remaining properties *)

Lemma Map_new_keys (es : list (K * V)) k :
  k ∈ Map_keys (Map_new (Some es)) ↔ k ∈ es.*1.
Proof.
  unfold Map_new. simpl.
  assert (∀ m : Map K V,
    k ∈ Map_keys (foldl (λ m kv, Map_set m kv.1 kv.2) m es)
    ↔ k ∈ Map_keys m ∨ k ∈ es.*1) as H.
  { induction es as [|[k' v'] es IH]; intros m; simpl.
    - split; [by left|]. intros [?|?%elem_of_nil]; done.
    - rewrite IH, elem_of_cons.
      destruct (decide (k' ∈ Map_keys m)) as [Hin|Hin].
      + rewrite Map_keys_set_present by done.
        split; [intros [?|?]; auto|]. intros [?|[->|?]]; auto.
      + rewrite Map_keys_set_absent, elem_of_app, list_elem_of_singleton by done.
        split; [intros [[?|?]|?]; auto|]. intros [?|[?|?]]; auto. }
  rewrite H. split; [|by right]. intros [?%elem_of_nil|?]; done.
Qed.

Lemma size_keys r : size r = length (keys r).
Proof. unfold size, Map_size, keys, Map_keys. by rewrite length_fmap. Qed.

(** Whatever branch [set] takes, its last step is [Map_set] on the key. *)
Lemma set_map k v r : ∃ m', map (set k v r) = Map_set m' k v.
Proof.
  unfold set. destruct (Map_has (map r) k); [by eexists|].
  destruct (number_ge _ _); [|by eexists].
  destruct (MapIterator_next _ _) as [[ev dn] it']. by eexists.
Qed.

Lemma get_set_eq k v r : get k (set k v r) = Some v.
Proof.
  unfold get. destruct (set_map k v r) as [m' ->]. apply Map_get_set_eq.
Qed.

Lemma has_get k r : has k r = bool_decide (is_Some (get k r)).
Proof. apply Map_has_get. Qed.

Lemma has_set_eq k v r : has k (set k v r) = true.
Proof. rewrite has_get, get_set_eq. by apply bool_decide_eq_true. Qed.

Lemma Map_get_delete_eq (m : Map K V) k :
  NoDup (Map_keys m) → Map_get (Map_delete m k).2 k = None.
Proof.
  intros Hnd. pose proof (Map_has_delete_eq m k Hnd) as Hh.
  rewrite Map_has_get in Hh. apply bool_decide_eq_false in Hh.
  by apply eq_None_not_Some.
Qed.

(** A call on another key leaves the value of [k] alone, unless [k] is
    the key it evicts. *)
Lemma get_set_ne k k' v' r :
  wf r → k' ≠ k → get k (set k' v' r) = get k r ∨ get k (set k' v' r) = None.
Proof.
  intros (_ & _ & Hnd) Hne. unfold get, set.
  destruct (Map_has (map r) k').
  - left. by apply Map_get_set_ne.
  - destruct (number_ge _ _); [|left; by apply Map_get_set_ne].
    destruct (MapIterator_next _ _) as [[ev dn] it']. cbn [map].
    rewrite Map_get_set_ne by done.
    destruct (decide (ev = k)) as [->|Hev].
    + right. by apply Map_get_delete_eq.
    + left. by apply Map_get_delete_ne.
Qed.

Lemma length_filter_delete (l : list (K * V)) k :
  NoDup l.*1 → k ∈ l.*1 → S (length (filter (λ e, e.1 ≠ k) l)) = length l.
Proof.
  induction l as [|[k' v'] l IH]; cbn [fmap list_fmap fst].
  - by intros _ ?%elem_of_nil.
  - intros [Hk' Hnd]%NoDup_cons Hin. destruct (decide (k' = k)) as [->|Hne].
    + rewrite filter_cons_False by (simpl; auto).
      by rewrite filter_other_keys.
    + rewrite filter_cons_True by done. simpl. f_equal. apply IH; [done|].
      by apply elem_of_cons in Hin as [->|].
Qed.

(** When the map is full the iterator yields the oldest live key, and
    [set] on a new key replaces that entry by the new one at the end. *)
Lemma set_when_full k v r :
  wf r → has k r = false →
  number_ge (number_of_nat (size r)) (maxSize r) = true →
  ∃ k0 v0 es it',
    entries r = (k0, v0) :: es
    ∧ MapIterator_next (keysIterator r) (map r)
      = ({| value := k0; done := false |}, it')
    ∧ entries (set k v r) = es ++ [(k, v)].
Proof.
  intros Hwf Hk Hfull.
  destruct (set_absent_entries k v r Hwf Hk) as [_ Hset]. rewrite Hfull in Hset.
  destruct Hwf as ([x [Hmx Hx]] & Hc & Hnd).
  pose proof (MapIterator_next_oldest _ _ Hc) as Hnext.
  unfold size, Map_size, entries in *.
  destruct (Map_entries (map r)) as [|[k0 v0] es].
  - rewrite Hmx in Hfull. cbn [length] in Hfull.
    by rewrite number_ge_empty in Hfull.
  - destruct Hnext as (it' & Hn & _). by exists k0, v0, es, it'.
Qed.

(** C4.  After a construction without initial entries, whatever [set],
    [delete] and [clear] calls follow, the iterator has not returned; and
    when [set] is then called on a new key while the map is full
    ([size >= maxSize], the test the code makes), [next()] is not done and
    yields a key that is present, namely the oldest one, so that one entry
    leaves, the new one enters and the size stays the same. *)
Theorem eviction_cursor_never_exhausted mx r0 cmds k v :
  constructor mx None = Normal r0 →
  exhausted (keysIterator (modelRun cmds r0)) = false
  ∧ (has k (modelRun cmds r0) = false →
     number_ge (number_of_nat (size (modelRun cmds r0)))
       (maxSize (modelRun cmds r0)) = true →
     ∃ k0 it',
       MapIterator_next (keysIterator (modelRun cmds r0)) (map (modelRun cmds r0))
       = ({| value := k0; done := false |}, it')
       ∧ has k0 (modelRun cmds r0) = true
       ∧ head (keys (modelRun cmds r0)) = Some k0
       ∧ has k0 (set k v (modelRun cmds r0)) = false
       ∧ size (set k v (modelRun cmds r0)) = size (modelRun cmds r0)).
Proof.
  intros Hr0. pose proof (wf_modelRun cmds _ (wf_constructor _ _ _ Hr0)) as Hwf.
  set (r := modelRun cmds r0) in *. split; [by destruct Hwf as (_ & [? _] & _)|].
  intros Hk Hfull.
  destruct (set_when_full k v r Hwf Hk Hfull) as (k0 & v0 & es & it' & He & Hn & Hs).
  exists k0, it'. destruct Hwf as (_ & _ & Hnd).
  unfold has, keys, Map_keys, size, Map_size, entries in *. rewrite He in *.
  cbn [fmap list_fmap fst] in *. apply NoDup_cons in Hnd as [Hk0 _].
  split_and!; [done| |done| |].
  - apply Map_has_true. unfold Map_keys. rewrite He. by left.
  - apply Map_has_false. unfold Map_keys. rewrite Hs, fmap_app.
    apply Map_has_false in Hk. unfold Map_keys in Hk. rewrite He in Hk.
    apply not_elem_of_cons in Hk as [Hne _].
    intros [?|?%list_elem_of_singleton]%elem_of_app; done.
  - rewrite Hs, length_app. simpl. lia.
Qed.

(** C5.  For every integer [n >= 1] the construction with capacity [n]
    succeeds, and [set] on [n + 1] distinct keys in order leaves exactly
    the entries of the last [n] keys, in the order they were set: the size
    is [n], the first key is absent and the others are present. *)
Theorem fifo_order (n : nat) kvs :
  1 ≤ n → length kvs = S n → NoDup kvs.*1 →
  ∃ r0, constructor (JSNumber (number_of_nat n)) None = Normal r0
        ∧ entries (modelRun (SetCommands kvs) r0) = tail kvs
        ∧ keys (modelRun (SetCommands kvs) r0) = tail kvs.*1
        ∧ size (modelRun (SetCommands kvs) r0) = n
        ∧ (∀ k, head kvs.*1 = Some k → has k (modelRun (SetCommands kvs) r0) = false)
        ∧ (∀ k, k ∈ tail kvs.*1 → has k (modelRun (SetCommands kvs) r0) = true).
Proof.
  intros Hn Hlen Hnd. eexists. split.
  { apply (constructor_integral (Z.of_nat n)). lia. }
  match goal with |- entries (modelRun _ ?r) = _ ∧ _ => set (r0 := r) end.
  assert (wf r0) as Hwf.
  { eapply wf_constructor. apply (constructor_integral (Z.of_nat n) None). lia. }
  assert (entries (modelRun (SetCommands kvs) r0) = tail kvs) as He.
  { rewrite modelRun_refines by done.
    rewrite (capacity_integral (Z.of_nat n)) by done.
    change (entries r0) with ([] : list (K * V)).
    rewrite Queue_SetCommands by (done || lia).
    rewrite Hlen, Nat2Z.id. replace (S n - n) with 1 by lia. by destruct kvs. }
  assert (keys (modelRun (SetCommands kvs) r0) = tail kvs.*1) as Hks.
  { unfold keys, Map_keys. fold (entries (modelRun (SetCommands kvs) r0)).
    rewrite He. by destruct kvs. }
  split_and!; [done|done| | |].
  - rewrite size_entries, He. destruct kvs; simpl in *; lia.
  - intros k Hk. apply Map_has_false. fold (keys (modelRun (SetCommands kvs) r0)).
    rewrite Hks. destruct kvs as [|[k' v'] kvs]; [done|]. simpl in *.
    injection Hk as ->. by apply NoDup_cons in Hnd as [? _].
  - intros k Hk. apply Map_has_true. fold (keys (modelRun (SetCommands kvs) r0)).
    by rewrite Hks.
Qed.

(** C6.  [set] on a key that is present overwrites in place: the key reads
    the new value, every other key reads what it read before, the keys and
    their order are the same, so is the size, and the iterator has not
    moved. *)
Theorem set_overwrites_in_place k v2 r :
  has k r = true →
  get k (set k v2 r) = Some v2
  ∧ size (set k v2 r) = size r
  ∧ keys (set k v2 r) = keys r
  ∧ (∀ k', k' ≠ k → get k' (set k v2 r) = get k' r)
  ∧ keysIterator (set k v2 r) = keysIterator r.
Proof.
  intros Hk. assert (keys (set k v2 r) = keys r) as Hks.
  { unfold has in Hk. unfold set, keys. rewrite Hk. simpl.
    apply Map_keys_set_present. by apply Map_has_true. }
  assert (size (set k v2 r) = size r) as Hsz.
  { by rewrite !size_keys, Hks. }
  split_and!; [apply get_set_eq|done|done| |].
  - intros k' Hne. unfold has in Hk. unfold get, set. rewrite Hk. simpl.
    by apply Map_get_set_ne.
  - unfold has in Hk. unfold set. by rewrite Hk.
Qed.

(** C7.  On an object built by the constructor and any calls: [delete] of
    a present key returns [true], makes the size one less, makes [has]
    false and leaves the other keys alone; [delete] of an absent key
    returns [false] and changes nothing; [delete] never moves the
    iterator; and whatever calls follow, when a later [set] of a new key
    finds the map full, it removes exactly the oldest entry still present,
    so the blank record of the deleted key is passed over. *)
Theorem delete_correct mx es r0 cmds k :
  constructor mx es = Normal r0 →
  (has k (modelRun cmds r0) = true →
     (delete k (modelRun cmds r0)).1 = true
     ∧ S (size (delete k (modelRun cmds r0)).2) = size (modelRun cmds r0)
     ∧ has k (delete k (modelRun cmds r0)).2 = false
     ∧ ∀ k', k' ≠ k →
         get k' (delete k (modelRun cmds r0)).2 = get k' (modelRun cmds r0))
  ∧ (has k (modelRun cmds r0) = false →
     delete k (modelRun cmds r0) = (false, modelRun cmds r0))
  ∧ keysIterator (delete k (modelRun cmds r0)).2
    = keysIterator (modelRun cmds r0)
  ∧ (∀ cmds' k' v',
       has k' (modelRun cmds' (delete k (modelRun cmds r0)).2) = false →
       number_ge
         (number_of_nat (size (modelRun cmds' (delete k (modelRun cmds r0)).2)))
         (maxSize (modelRun cmds' (delete k (modelRun cmds r0)).2)) = true →
       ∃ k0 v0 rest,
         entries (modelRun cmds' (delete k (modelRun cmds r0)).2)
         = (k0, v0) :: rest
         ∧ entries (set k' v' (modelRun cmds' (delete k (modelRun cmds r0)).2))
           = rest ++ [(k', v')]).
Proof.
  intros Hr0. pose proof (wf_modelRun cmds _ (wf_constructor _ _ _ Hr0)) as Hwf.
  set (r := modelRun cmds r0) in *. split_and!.
  - intros Hk. destruct Hwf as (_ & _ & Hnd). split_and!.
    + by rewrite delete_fst.
    + rewrite delete_snd. unfold size, Map_size. simpl.
      rewrite Map_entries_delete by done.
      apply length_filter_delete; [done|]. by apply Map_has_true.
    + rewrite delete_snd. unfold has. simpl. by apply Map_has_delete_eq.
    + intros k' Hne. rewrite delete_snd. unfold get. simpl.
      by apply Map_get_delete_ne.
  - intros Hk. unfold delete. unfold has in Hk.
    rewrite (Map_delete_absent _ _ Hk). by destruct r.
  - by rewrite delete_snd.
  - intros cmds' k' v' Hk' Hfull.
    pose proof (wf_modelRun cmds' _ (wf_delete k _ Hwf)) as Hwf'.
    destruct (set_when_full k' v' _ Hwf' Hk' Hfull)
      as (k0 & v0 & rest & it' & He & _ & Hs).
    by exists k0, v0, rest.
Qed.

(** C8.  The constructor throws exactly when its argument is not of type
    number, is [NaN], is less than 1 or is infinite; so it throws for 0,
    -1, [NaN] and [Infinity] and returns for 1.  A call of [set], [get],
    [has], [delete], [clear], [size], [entries], [keys] or [values]
    never throws. *)
Theorem constructor_validation :
  (∀ mx (es : option (list (K * V))),
     (∃ e, constructor mx es = Throw e)
     ↔ (typeof mx ≠ "number"
        ∨ mx = JSNumber NaN
        ∨ (∃ n, mx = JSNumber n ∧ number_lt n (Finite 1) = true)
        ∨ mx = JSNumber Infinity ∨ mx = JSNumber NegInfinity))
  ∧ (∀ es : option (list (K * V)),
       (∃ e, constructor (JSNumber (Finite 0)) es = Throw e)
       ∧ (∃ e, constructor (JSNumber (Finite (-1))) es = Throw e)
       ∧ (∃ e, constructor (JSNumber NaN) es = Throw e)
       ∧ (∃ e, constructor (JSNumber Infinity) es = Throw e)
       ∧ (∃ r, constructor (JSNumber (Finite 1)) es = Normal r))
  ∧ (∀ (cl : call K V) r, ∃ ret r', invoke cl r = Normal (ret, r')).
Proof.
  split_and!.
  - intros mx es. unfold constructor. split.
    + intros [e He]. destruct mx as [| | | |[| | |x]|]; simpl in *;
        try (left; done); try (by right; left); try (by do 3 right; auto).
      destruct (number_lt (Finite x) (Finite 1)) eqn:Hlt; [|done].
      do 2 right. left. eauto.
    + intros [Hty|[->|[(n & -> & Hlt)|[->| ->]]]]; simpl; eauto.
      * destruct mx as [| | | |n|]; simpl in *; eauto. done.
      * rewrite Hlt. simpl. destruct (Number_isNaN n); eauto.
  - intros es. split_and!; by eexists.
  - intros [k v|k|k|k| | | | |] r; simpl; eauto.
    destruct (delete k r). eauto.
Qed.

Lemma get_preserved k v cmds r :
  wf r → get k r = Some v ∨ get k r = None →
  Forall (λ cmd, cmd ≠ DeleteCommand k ∧ ∀ v', cmd ≠ SetCommand k v') cmds →
  get k (modelRun cmds r) = Some v ∨ get k (modelRun cmds r) = None.
Proof.
  revert r. induction cmds as [|cmd cmds IH]; intros r Hwf Hg Hcmds; [done|].
  apply Forall_cons in Hcmds as [[Hd Hs] Hcmds].
  unfold modelRun in *. simpl. apply IH; [by apply wf_run| |done].
  destruct cmd as [k' v'|k'|]; simpl.
  - assert (k' ≠ k) as Hne by (intros ->; by apply (Hs v')).
    destruct (get_set_ne k k' v' r Hwf Hne) as [-> | ->]; auto.
  - assert (k' ≠ k) as Hne by (by intros ->).
    rewrite delete_snd. unfold get in *. simpl. by rewrite Map_get_delete_ne.
  - right. apply Map_get_clear.
Qed.

(** The constructor keeps every key it is given. *)
Lemma constructor_keeps_every_key mx (es : list (K * V)) r0 k :
  constructor mx (Some es) = Normal r0 → has k r0 = true ↔ k ∈ es.*1.
Proof.
  intros (x & -> & Hx & ->)%constructor_Normal. unfold has. simpl.
  rewrite Map_has_true. apply Map_new_keys.
Qed.

(** C9.  On an object built by the constructor and any calls, [clear]
    leaves size 0 and does not touch the iterator; from then on the object
    shows the same entries as a newly constructed one under every sequence
    of calls; in particular [set] on distinct keys leaves the most recent
    ones, as many as the capacity, in the order they were set. *)
Theorem clear_then_fifo mx es r0 f0 cmds :
  constructor mx es = Normal r0 →
  constructor mx None = Normal f0 →
  size (clear (modelRun cmds r0)) = 0
  ∧ keysIterator (clear (modelRun cmds r0)) = keysIterator (modelRun cmds r0)
  ∧ (∀ cmds',
       entries (modelRun cmds' (clear (modelRun cmds r0)))
       = entries (modelRun cmds' f0))
  ∧ (∀ kvs, NoDup kvs.*1 →
       entries (modelRun (SetCommands kvs) (clear (modelRun cmds r0)))
       = drop (length kvs - Z.to_nat (capacity f0)) kvs
       ∧ (Z.of_nat (size (modelRun (SetCommands kvs) (clear (modelRun cmds r0))))
          ≤ capacity f0)%Z).
Proof.
  intros Hr0 Hf0.
  pose proof (wf_clear _ (wf_modelRun cmds _ (wf_constructor _ _ _ Hr0))) as Hwf.
  pose proof (wf_constructor _ _ _ Hf0) as Hwf0.
  set (r := clear (modelRun cmds r0)) in *.
  assert (entries r = []) as He by apply Map_entries_clear.
  assert (capacity r = capacity f0) as Hcap.
  { unfold r, capacity, clear. cbn [maxSize]. rewrite maxSize_modelRun.
    apply constructor_Normal in Hr0 as (x & -> & _ & ->).
    by apply constructor_Normal in Hf0 as (x' & [= <-] & _ & ->). }
  assert (entries f0 = []) as He0 by by eapply entries_constructor_empty.
  assert (∀ cmds', entries (modelRun cmds' r) = entries (modelRun cmds' f0)) as Heq.
  { intros cmds'. rewrite !modelRun_refines by done. by rewrite He, He0, Hcap. }
  split_and!; [by rewrite size_entries, He|done|done|].
  intros kvs Hnd.
  assert (entries (modelRun (SetCommands kvs) r)
          = drop (length kvs - Z.to_nat (capacity f0)) kvs) as Hd.
  { rewrite modelRun_refines, He, Hcap by done.
    apply Queue_SetCommands; [by apply capacity_pos|done]. }
  split; [done|]. rewrite size_entries, Hd, length_drop.
  pose proof (capacity_pos _ Hwf0). lia.
Qed.

(** C10.  On an object built by the constructor and any calls, right after
    [set(k, v)] the key is present and reads [v]; and after any further
    calls among which there is no [delete(k)] and no [set(k, _)], the key
    still reads [v] if it is still present. *)
Theorem set_then_get mx es r0 cmds0 k v :
  constructor mx es = Normal r0 →
  has k (set k v (modelRun cmds0 r0)) = true
  ∧ get k (set k v (modelRun cmds0 r0)) = Some v
  ∧ ∀ cmds,
      Forall (λ cmd, cmd ≠ DeleteCommand k ∧ ∀ v', cmd ≠ SetCommand k v') cmds →
      has k (modelRun cmds (set k v (modelRun cmds0 r0))) = true →
      get k (modelRun cmds (set k v (modelRun cmds0 r0))) = Some v.
Proof.
  intros Hr0.
  pose proof (wf_set k v _ (wf_modelRun cmds0 _ (wf_constructor _ _ _ Hr0))) as Hwf.
  split_and!; [apply has_set_eq|apply get_set_eq|].
  intros cmds Hcmds Hk. rewrite has_get in Hk. apply bool_decide_eq_true in Hk.
  destruct (get_preserved k v cmds _ Hwf) as [Hg|Hg]; [|done|done|].
  - left. apply get_set_eq.
  - rewrite Hg in Hk. by destruct Hk.
Qed.

End Properties.
(** ** The scenarios of the test suite and other concrete runs *)

Example scenario3_run :
  entries (modelRun scenario3 (fresh 3)) = [(kb, 2); (kc, 3); (kd, 4)]%Z
  ∧ has ka (modelRun scenario3 (fresh 3)) = false.
Proof. done. Qed.

Example scenario1_run :
  entries (modelRun scenario1 (fresh 1)) = [(kd, 2)]%Z
  ∧ has kc (modelRun scenario1 (fresh 1)) = false.
Proof. done. Qed.

Lemma capacity_invariant_witness :
  (1 ≤ 3)%Z
  ∧ ∃ r0 : t jskey Z,
      constructor (JSNumber (number_of_Z 3)) None = Normal r0
      ∧ Forall (λ r, (Z.of_nat (size r) ≤ 3)%Z) (trace scenario3 r0).
Proof.
  split; [lia|]. apply (capacity_invariant 3 scenario3). lia.
Defined.

(** A [maxSize] that is not an integer: 1.5 passes the constructor and
    the map then holds two entries. *)
Lemma capacity_exceeded_fractional :
  ∃ r0 : t jskey Z,
    constructor (JSNumber (Finite (3 # 2))) None = Normal r0
    ∧ size (modelRun [SetCommand ka 1; SetCommand kb 2]%Z r0) = 2
    ∧ ¬ (inject_Z (Z.of_nat (size (modelRun [SetCommand ka 1; SetCommand kb 2]%Z r0)))
         <= 3 # 2)%Q.
Proof. exists (fresh (3 # 2)). split_and!; [done..|]. by vm_compute. Qed.

(** C2 fails on the code: the constructor hands its entries to the
    built-in [Map] and evicts nothing.  With capacity 1 and two entries
    both are present afterwards, where two [set] calls leave only the
    second. *)
Lemma constructor_entries_not_evicted :
  ∃ r0 : t jskey Z,
    constructor (JSNumber (Finite 1)) (Some [(ka, 1); (kb, 2)]%Z) = Normal r0
    ∧ size r0 = 2
    ∧ entries r0 = [(ka, 1); (kb, 2)]%Z
    ∧ has ka r0 = true
    ∧ entries (modelRun (SetCommands [(ka, 1); (kb, 2)]%Z) (fresh 1))
      = [(kb, 2)]%Z.
Proof. eexists. by split_and!. Qed.

Lemma model_equivalence_witness :
  (1 ≤ 2)%Z
  ∧ ∃ r0 : t jskey Z,
      constructor (JSNumber (number_of_Z 2)) None = Normal r0
      ∧ entries (modelRun scenario_mixed r0)
        = Queue_modelRun (inject_Z 2) scenario_mixed []
      ∧ keys (modelRun scenario_mixed r0)
        = (Queue_modelRun (inject_Z 2) scenario_mixed []).*1
      ∧ values (modelRun scenario_mixed r0)
        = (Queue_modelRun (inject_Z 2) scenario_mixed []).*2
      ∧ (∀ k v, get k (modelRun scenario_mixed r0) = Some v
                ↔ (k, v) ∈ Queue_modelRun (inject_Z 2) scenario_mixed []).
Proof.
  split; [lia|]. apply (model_equivalence 2 scenario_mixed). lia.
Defined.

(** With [maxSize = 1.5] the class keeps two entries, and a queue that
    evicts whenever a new key would make it longer than 1.5 keeps one. *)
Lemma model_differs_fractional :
  ∃ r0 : t jskey Z,
    constructor (JSNumber (Finite (3 # 2))) None = Normal r0
    ∧ entries (modelRun [SetCommand ka 1; SetCommand kb 2]%Z r0)
      = [(ka, 1); (kb, 2)]%Z
    ∧ Queue_modelRun (3 # 2) [SetCommand ka 1; SetCommand kb 2]%Z []
      = [(kb, 2)]%Z
    ∧ entries (modelRun [SetCommand ka 1; SetCommand kb 2]%Z r0)
      ≠ Queue_modelRun (3 # 2) [SetCommand ka 1; SetCommand kb 2]%Z [].
Proof. exists (fresh (3 # 2)). by split_and!. Qed.

Lemma eviction_cursor_never_exhausted_witness :
  constructor (JSNumber (Finite 1)) None = Normal (fresh 1)
  ∧ has kd (modelRun (take 4 scenario1) (fresh 1)) = false
  ∧ number_ge (number_of_nat (size (modelRun (take 4 scenario1) (fresh 1))))
      (maxSize (modelRun (take 4 scenario1) (fresh 1))) = true
  ∧ ∃ k0 it',
      MapIterator_next (keysIterator (modelRun (take 4 scenario1) (fresh 1)))
        (map (modelRun (take 4 scenario1) (fresh 1)))
      = ({| value := k0; done := false |}, it')
      ∧ has k0 (modelRun (take 4 scenario1) (fresh 1)) = true
      ∧ head (keys (modelRun (take 4 scenario1) (fresh 1))) = Some k0
      ∧ has k0 (set kd 2%Z (modelRun (take 4 scenario1) (fresh 1))) = false
      ∧ size (set kd 2%Z (modelRun (take 4 scenario1) (fresh 1)))
        = size (modelRun (take 4 scenario1) (fresh 1)).
Proof.
  split_and!; [reflexivity..|].
  exact (proj2 (eviction_cursor_never_exhausted (JSNumber (Finite 1)) (fresh 1)
                  (take 4 scenario1) kd 2%Z eq_refl) eq_refl eq_refl).
Defined.

Lemma fifo_order_witness :
  1 ≤ 3
  ∧ NoDup [(ka, 1); (kb, 2); (kc, 3); (kd, 4)]%Z.*1
  ∧ ∃ r0 : t jskey Z,
      constructor (JSNumber (number_of_nat 3)) None = Normal r0
      ∧ entries (modelRun scenario3 r0) = [(kb, 2); (kc, 3); (kd, 4)]%Z
      ∧ keys (modelRun scenario3 r0) = [kb; kc; kd]
      ∧ size (modelRun scenario3 r0) = 3
      ∧ (∀ k, Some ka = Some k → has k (modelRun scenario3 r0) = false)
      ∧ (∀ k, k ∈ [kb; kc; kd] → has k (modelRun scenario3 r0) = true).
Proof.
  assert (NoDup [(ka, 1); (kb, 2); (kc, 3); (kd, 4)]%Z.*1) as Hnd.
  { apply (bool_decide_unpack _). vm_compute. reflexivity. }
  split_and!; [lia|exact Hnd|].
  apply (fifo_order 3 [(ka, 1); (kb, 2); (kc, 3); (kd, 4)]%Z);
    [lia|reflexivity|exact Hnd].
Defined.

Lemma set_overwrites_in_place_witness :
  has ka (set ka 1%Z (fresh 3)) = true
  ∧ get ka (set ka 2%Z (set ka 1%Z (fresh 3))) = Some 2%Z
  ∧ size (set ka 2%Z (set ka 1%Z (fresh 3))) = size (set ka 1%Z (fresh 3))
  ∧ keys (set ka 2%Z (set ka 1%Z (fresh 3))) = keys (set ka 1%Z (fresh 3))
  ∧ (∀ k', k' ≠ ka →
       get k' (set ka 2%Z (set ka 1%Z (fresh 3))) = get k' (set ka 1%Z (fresh 3)))
  ∧ keysIterator (set ka 2%Z (set ka 1%Z (fresh 3)))
    = keysIterator (set ka 1%Z (fresh 3)).
Proof.
  split; [reflexivity|].
  apply (set_overwrites_in_place ka 2%Z (set ka 1%Z (fresh 3))). reflexivity.
Defined.

Lemma delete_correct_witness :
  constructor (JSNumber (Finite 1)) None = Normal (fresh 1)
  ∧ has kb (modelRun (take 2 scenario1) (fresh 1)) = true
  ∧ (delete kb (modelRun (take 2 scenario1) (fresh 1))).1 = true
  ∧ S (size (delete kb (modelRun (take 2 scenario1) (fresh 1))).2)
    = size (modelRun (take 2 scenario1) (fresh 1))
  ∧ has kb (delete kb (modelRun (take 2 scenario1) (fresh 1))).2 = false
  ∧ ∃ k0 v0 rest,
      entries (modelRun [SetCommand kc 2%Z]
                 (delete kb (modelRun (take 2 scenario1) (fresh 1))).2)
      = (k0, v0) :: rest
      ∧ entries (set kd 2%Z
                   (modelRun [SetCommand kc 2%Z]
                      (delete kb (modelRun (take 2 scenario1) (fresh 1))).2))
        = rest ++ [(kd, 2%Z)].
Proof.
  destruct (delete_correct (JSNumber (Finite 1)) None (fresh 1)
              (take 2 scenario1) kb eq_refl) as (H1 & _ & _ & H4).
  destruct (H1 eq_refl) as (Ha & Hb & Hc & _).
  split_and!; [reflexivity|reflexivity|exact Ha|exact Hb|exact Hc|].
  exact (H4 [SetCommand kc 2%Z] kd 2%Z eq_refl eq_refl).
Defined.

Lemma clear_then_fifo_witness :
  constructor (JSNumber (Finite 1)) None = Normal (fresh 1)
  ∧ size (clear (modelRun scenario1 (fresh 1))) = 0
  ∧ keysIterator (clear (modelRun scenario1 (fresh 1)))
    = keysIterator (modelRun scenario1 (fresh 1))
  ∧ (∀ cmds',
       entries (modelRun cmds' (clear (modelRun scenario1 (fresh 1))))
       = entries (modelRun cmds' (fresh 1)))
  ∧ (∀ kvs, NoDup kvs.*1 →
       entries (modelRun (SetCommands kvs) (clear (modelRun scenario1 (fresh 1))))
       = drop (length kvs - Z.to_nat (capacity (fresh 1))) kvs
       ∧ (Z.of_nat (size (modelRun (SetCommands kvs)
                            (clear (modelRun scenario1 (fresh 1)))))
          ≤ capacity (fresh 1))%Z).
Proof.
  split; [reflexivity|].
  apply (clear_then_fifo (JSNumber (Finite 1)) None (fresh 1) (fresh 1) scenario1);
    reflexivity.
Defined.

Lemma set_then_get_witness :
  constructor (JSNumber (Finite 3)) None = Normal (fresh 3)
  ∧ has ka (set ka 1%Z (modelRun [] (fresh 3))) = true
  ∧ get ka (set ka 1%Z (modelRun [] (fresh 3))) = Some 1%Z
  ∧ ∀ cmds,
      Forall (λ cmd, cmd ≠ DeleteCommand ka ∧ ∀ v', cmd ≠ SetCommand ka v') cmds →
      has ka (modelRun cmds (set ka 1%Z (modelRun [] (fresh 3)))) = true →
      get ka (modelRun cmds (set ka 1%Z (modelRun [] (fresh 3)))) = Some 1%Z.
Proof.
  split; [reflexivity|].
  apply (set_then_get (JSNumber (Finite 3)) None (fresh 3) [] ka 1%Z). reflexivity.
Defined.

(** ** Further properties of the class *)

Section Further.
Context {K : Type} `{!JSKey K} {V : Type}.
Implicit Types (r this : t K V) (k key : K) (v : V) (c N : Z)
  (cmd : command K V) (cmds : list (command K V)) (q : Queue K V)
  (kvs : list (K * V)).

Lemma entries_nonempty_when_full r :
  wf r → number_ge (number_of_nat (size r)) (maxSize r) = true → entries r ≠ [].
Proof.
  intros ([x [Hmx Hx]] & _) Hfull He. unfold size, Map_size, entries in *.
  rewrite He, Hmx in Hfull. cbn [length] in Hfull.
  by rewrite number_ge_empty in Hfull.
Qed.

(** X1.  How [set] changes the size: by one when the key is new and the map is
    not full, and not at all otherwise. *)
Theorem set_size mx es r0 cmds k v :
  constructor mx es = Normal r0 →
  size (set k v (modelRun cmds r0))
  = if has k (modelRun cmds r0) then size (modelRun cmds r0)
    else if number_ge (number_of_nat (size (modelRun cmds r0)))
              (maxSize (modelRun cmds r0))
         then size (modelRun cmds r0)
         else S (size (modelRun cmds r0)).
Proof.
  intros Hr0. pose proof (wf_modelRun cmds _ (wf_constructor _ _ _ Hr0)) as Hwf.
  set (r := modelRun cmds r0) in *. destruct (has k r) eqn:Hk.
  - destruct (set_present_entries k v r Hwf Hk) as [_ He].
    by rewrite !size_entries, He, length_fmap.
  - destruct (set_absent_entries k v r Hwf Hk) as [_ He].
    rewrite (size_entries (set k v r)), He, length_app. simpl.
    destruct (number_ge _ _) eqn:Hfull.
    + pose proof (entries_nonempty_when_full r Hwf Hfull) as Hne.
      rewrite size_entries. destruct (entries r); [done|]. simpl. lia.
    + rewrite size_entries. lia.
Qed.

(** X2.  What [set] does to the other keys: a key other than the one set reads
    what it read before, except the oldest key when the key set is new
    and the map is full, which is gone. *)
Theorem set_other_keys mx es r0 cmds k v k' :
  constructor mx es = Normal r0 →
  k' ≠ k →
  get k' (set k v (modelRun cmds r0))
  = if negb (has k (modelRun cmds r0))
       && number_ge (number_of_nat (size (modelRun cmds r0)))
            (maxSize (modelRun cmds r0))
       && bool_decide (head (keys (modelRun cmds r0)) = Some k')
    then None
    else get k' (modelRun cmds r0).
Proof.
  intros Hr0 Hne.
  pose proof (wf_modelRun cmds _ (wf_constructor _ _ _ Hr0)) as Hwf.
  set (r := modelRun cmds r0) in *. destruct (has k r) eqn:Hk; simpl.
  - unfold has in Hk. unfold get, set. rewrite Hk. simpl.
    apply Map_get_set_ne. by intros ->.
  - destruct (number_ge _ _) eqn:Hfull; simpl.
    + destruct (set_when_full k v r Hwf Hk Hfull)
        as (k0 & v0 & rest & it' & He & Hn & _).
      assert (head (keys r) = Some k0) as Hhd.
      { unfold keys, Map_keys. fold (entries r). by rewrite He. }
      rewrite Hhd. unfold has in Hk. unfold size in Hfull.
      unfold get, set. rewrite Hk, Hfull, Hn.
      cbn [map]. rewrite Map_get_set_ne by (by intros ->).
      destruct Hwf as (_ & _ & Hnd). case_bool_decide as Hk0.
      * injection Hk0 as ->. by apply Map_get_delete_eq.
      * apply Map_get_delete_ne. by intros ->.
    + unfold has in Hk. unfold size in Hfull.
      unfold get, set. rewrite Hk, Hfull. cbn [map].
      apply Map_get_set_ne. by intros ->.
Qed.

(** X3.  [set] on a new key while the map is not full puts the entry at the
    end of the order, removes nothing and leaves the iterator where it
    is.  This holds in every state of the object. *)
Theorem set_new_appends k v r :
  has k r = false →
  number_ge (number_of_nat (size r)) (maxSize r) = false →
  entries (set k v r) = entries r ++ [(k, v)]
  ∧ keys (set k v r) = keys r ++ [k]
  ∧ keysIterator (set k v r) = keysIterator r.
Proof.
  intros Hk Hfull. unfold has in Hk. unfold size in Hfull.
  unfold set, entries, keys.
  rewrite Hk, Hfull. cbn [map keysIterator]. apply Map_has_false in Hk.
  split_and!; [by apply Map_entries_set_absent|by apply Map_keys_set_absent|done].
Qed.


(** X5.  [delete] takes the entry of the key out and keeps the other entries
    in their order. *)
Theorem delete_keeps_order mx es r0 cmds k :
  constructor mx es = Normal r0 →
  entries (delete k (modelRun cmds r0)).2
  = filter (λ e, e.1 ≠ k) (entries (modelRun cmds r0)).
Proof.
  intros Hr0.
  pose proof (wf_modelRun cmds _ (wf_constructor _ _ _ Hr0)) as (_ & _ & Hnd).
  rewrite delete_snd. by apply Map_entries_delete.
Qed.

Lemma capacity_after cmds r : capacity (modelRun cmds r) = capacity r.
Proof. unfold capacity. by rewrite maxSize_modelRun. Qed.

Lemma size_modelRun_bound cmds r :
  wf r → (Z.of_nat (size r) ≤ capacity r)%Z →
  (Z.of_nat (size (modelRun cmds r)) ≤ capacity r)%Z.
Proof.
  revert r. induction cmds as [|cmd cmds IH]; intros r Hwf Hsz; [done|].
  unfold modelRun in *. simpl. rewrite <- (capacity_run cmd r).
  apply IH; [by apply wf_run|]. rewrite capacity_run. by apply size_run_bound.
Qed.

Lemma size_fresh_bound mx r0 cmds :
  constructor mx None = Normal r0 →
  (Z.of_nat (size (modelRun cmds r0)) ≤ capacity (modelRun cmds r0))%Z.
Proof.
  intros Hr0. pose proof (wf_constructor _ _ _ Hr0) as Hwf.
  rewrite capacity_after. apply size_modelRun_bound; [done|].
  pose proof (capacity_pos _ Hwf).
  apply constructor_Normal in Hr0 as (x & -> & _ & ->).
  unfold size, Map_size. simpl. lia.
Qed.

Lemma filter_other_keys_snoc (l : list (K * V)) k v :
  k ∉ l.*1 → filter (λ e, e.1 ≠ k) (l ++ [(k, v)]) = l.
Proof.
  intros Hk. rewrite filter_app, filter_other_keys by done.
  rewrite filter_cons_False by (simpl; auto). apply app_nil_r.
Qed.

(** X6.  After a construction without initial entries and any calls, [delete]
    of a present key followed by [set] of the same key moves the key to
    the end of the order: the other entries keep their order and none is
    evicted. *)
Theorem delete_then_set_moves_to_end mx r0 cmds k v :
  constructor mx None = Normal r0 →
  has k (modelRun cmds r0) = true →
  entries (set k v (delete k (modelRun cmds r0)).2)
  = filter (λ e, e.1 ≠ k) (entries (modelRun cmds r0)) ++ [(k, v)].
Proof.
  intros Hr0 Hk.
  pose proof (wf_modelRun cmds _ (wf_constructor _ _ _ Hr0)) as Hwf.
  pose proof (size_fresh_bound mx r0 cmds Hr0) as Hsz.
  set (r := modelRun cmds r0) in *.
  pose proof (wf_delete k r Hwf) as Hwf'.
  pose proof Hwf as (_ & _ & Hnd).
  assert (entries (delete k r).2 = filter (λ e, e.1 ≠ k) (entries r)) as He.
  { rewrite delete_snd. by apply Map_entries_delete. }
  assert (has k (delete k r).2 = false) as Hk'.
  { rewrite delete_snd. unfold has. simpl. by apply Map_has_delete_eq. }
  assert (S (size (delete k r).2) = size r) as Hsz'.
  { rewrite !size_entries, He. apply length_filter_delete; [done|].
    by apply Map_has_true. }
  destruct (set_absent_entries k v _ Hwf' Hk') as [_ ->].
  rewrite full_capacity by done. rewrite bool_decide_eq_false_2; [by rewrite He|].
  rewrite delete_snd. unfold capacity in *. simpl. rewrite delete_snd in Hsz'.
  lia.
Qed.

(** X7.  On every object the constructor and the methods can produce, [set] of
    a new key followed by [delete] of that key gives back the entries
    there were, less the oldest one if the map was full. *)
Theorem set_then_delete_restores mx es r0 cmds k v :
  constructor mx es = Normal r0 →
  has k (modelRun cmds r0) = false →
  entries (delete k (set k v (modelRun cmds r0))).2
  = if number_ge (number_of_nat (size (modelRun cmds r0)))
         (maxSize (modelRun cmds r0))
    then tail (entries (modelRun cmds r0))
    else entries (modelRun cmds r0).
Proof.
  intros Hr0 Hk.
  pose proof (wf_modelRun cmds _ (wf_constructor _ _ _ Hr0)) as Hwf.
  set (r := modelRun cmds r0) in *.
  destruct (set_absent_entries k v r Hwf Hk) as [Hwf' He].
  pose proof Hwf' as (_ & _ & Hnd').
  rewrite delete_snd. unfold entries at 1. cbn [map].
  rewrite Map_entries_delete by done. fold (entries (set k v r)). rewrite He.
  apply filter_other_keys_snoc.
  apply Map_has_false in Hk. fold (keys r) in Hk. unfold keys, Map_keys in Hk.
  fold (entries r) in Hk. destruct (number_ge _ _); [|done].
  intros Hin. apply Hk. destruct (entries r) as [|e l]; [done|]. by right.
Qed.

(** X8.  The size after any calls is at most the larger of the capacity and
    the size the constructor left; so a map constructed with more entries
    than its capacity never grows further. *)
Theorem size_never_grows_past mx es r0 cmds :
  constructor mx es = Normal r0 →
  (Z.of_nat (size (modelRun cmds r0)) ≤ Z.of_nat (size r0) `max` capacity r0)%Z.
Proof.
  intros Hr0. pose proof (wf_constructor _ _ _ Hr0) as Hwf.
  assert (∀ r, wf r →
            (Z.of_nat (size (modelRun cmds r)) ≤ Z.of_nat (size r) `max` capacity r)%Z)
    as H; [|by apply H].
  induction cmds as [|cmd cmds IH]; intros r Hr; [simpl; lia|].
  unfold modelRun in *. simpl. etrans; [apply IH; by apply wf_run|].
  rewrite capacity_run.
  assert (Z.of_nat (size (run cmd r)) ≤ Z.of_nat (size r) `max` capacity r)%Z; [|lia].
  destruct cmd as [k v|k|]; simpl.
  - destruct (has k r) eqn:Hk.
    + destruct (set_present_entries k v r Hr Hk) as [_ He].
      rewrite !size_entries, He, length_fmap. lia.
    + destruct (set_absent_entries k v r Hr Hk) as [_ He].
      rewrite (size_entries (set k v r)), He, length_app. simpl.
      rewrite full_capacity by done. rewrite size_entries.
      pose proof (capacity_pos r Hr).
      case_bool_decide; [|lia]. destruct (entries r); simpl in *; lia.
  - destruct Hr as (_ & _ & Hnd). rewrite delete_snd, !size_entries.
    unfold entries at 1. cbn [map]. rewrite Map_entries_delete by done.
    pose proof (length_filter (λ e : K * V, e.1 ≠ k) (entries r)) as Hl.
    apply Nat2Z.inj_le in Hl. etrans; [exact Hl|]. lia.
  - rewrite size_entries. unfold entries, clear. cbn [map].
    rewrite Map_entries_clear. simpl. lia.
Qed.

(** *** The constructor with initial entries *)

Lemma Map_new_snoc (es : list (K * V)) k v :
  Map_new (Some (es ++ [(k, v)])) = Map_set (Map_new (Some es)) k v.
Proof. unfold Map_new. simpl. by rewrite foldl_app. Qed.

Lemma Map_get_set (m : Map K V) k v k' :
  Map_get (Map_set m k v) k' = if decide (k = k') then Some v else Map_get m k'.
Proof.
  destruct (decide (k = k')) as [->|Hne].
  - apply Map_get_set_eq.
  - by apply Map_get_set_ne.
Qed.

Lemma Map_keys_set (m : Map K V) k v :
  Map_keys (Map_set m k v)
  = if decide (k ∈ Map_keys m) then Map_keys m else Map_keys m ++ [k].
Proof.
  destruct (decide _).
  - by apply Map_keys_set_present.
  - by apply Map_keys_set_absent.
Qed.

(** X9.  The constructor keeps every key it is given, in the order in which
    the keys first occur, each with the last value given for it; the
    size is the number of distinct keys, whatever the capacity. *)
Theorem constructor_with_entries mx (es : list (K * V)) r0 :
  constructor mx (Some es) = Normal r0 →
  keys r0 = reverse (remove_dups (reverse es.*1))
  ∧ (∀ k, get k r0 = snd <$> last (filter (λ e, e.1 = k) es))
  ∧ size r0 = length (remove_dups es.*1)
  ∧ keysIterator r0 = Map_keys_iterator.
Proof.
  intros (x & -> & Hx & ->)%constructor_Normal.
  unfold keys, get, size. cbn [map keysIterator].
  assert (Map_keys (Map_new (Some es)) = reverse (remove_dups (reverse es.*1)))
    as Hkeys.
  { induction es as [|[k v] es IH] using rev_ind; [done|].
    rewrite Map_new_snoc, Map_keys_set, IH, fmap_app, reverse_app.
    change (reverse ([(k, v)].*1) ++ reverse es.*1) with (k :: reverse es.*1).
    cbn [remove_dups].
    destruct (decide (k ∈ reverse (remove_dups (reverse es.*1)))) as [H1|H1];
      destruct (decide_rel elem_of k (reverse es.*1)) as [H2|H2];
      rewrite elem_of_reverse, elem_of_remove_dups in H1; try done.
    by rewrite reverse_cons. }
  split_and!; [done| | |done].
  - clear Hkeys. intros k'. induction es as [|[k v] es IH] using rev_ind; [done|].
    rewrite Map_new_snoc, Map_get_set, filter_app.
    destruct (decide (k = k')) as [->|Hne].
    + rewrite filter_cons_True, filter_nil by done. by rewrite last_snoc.
    + rewrite filter_cons_False, filter_nil by done. by rewrite app_nil_r.
  - unfold Map_size. rewrite <- (length_fmap fst). fold (Map_keys (Map_new (Some es))).
    rewrite Hkeys, length_reverse. apply Permutation_length.
    apply NoDup_Permutation; [apply NoDup_remove_dups..|].
    intros k. by rewrite !elem_of_remove_dups, elem_of_reverse.
Qed.

(** *** First in, first out, from any state *)

Lemma Queue_SetCommands_from N (q : list (K * V)) kvs :
  (1 ≤ N)%Z → (Z.of_nat (length q) ≤ N)%Z → NoDup (q ++ kvs).*1 →
  Queue_modelRun (inject_Z N) (SetCommands kvs) q
  = drop (length q + length kvs - Z.to_nat N) (q ++ kvs).
Proof.
  intros HN Hq. induction kvs as [|[k v] kvs IH] using rev_ind; intros Hnd.
  { simpl. rewrite app_nil_r. replace (_ - _) with 0 by lia. done. }
  rewrite (assoc_L (++)), fmap_app in Hnd.
  apply NoDup_app in Hnd as (Hnd & Hk & _).
  unfold Queue_modelRun, SetCommands in *.
  rewrite fmap_app, foldl_app, IH by done. simpl.
  remember (length q + length kvs) as total eqn:Htot.
  unfold Queue_set. rewrite bool_decide_eq_false_2.
  2:{ intros Hin. apply (Hk k); [|by left].
      apply list_elem_of_fmap in Hin as (e & -> & He).
      apply list_elem_of_fmap. exists e. split; [done|].
      by eapply subseteq_drop. }
  pose proof (Queue_exceeds N (length (drop (total - Z.to_nat N) (q ++ kvs)))) as Hx.
  assert (length (q ++ kvs) = total) as Hlen by (by rewrite length_app).
  rewrite length_app. simpl. rewrite (assoc_L (++)).
  destruct (Qlt_le_dec _ _); symmetry in Hx; rewrite length_drop, Hlen in Hx.
  - apply bool_decide_eq_true in Hx.
    replace (length q + (length kvs + 1) - Z.to_nat N)
      with (S (total - Z.to_nat N)) by lia.
    rewrite (drop_app_le (q ++ kvs)) by (rewrite Hlen; lia). f_equal.
    generalize (total - Z.to_nat N) (q ++ kvs). clear.
    intros n l. revert l. induction n as [|n IH]; intros [|e l]; simpl; done.
  - apply bool_decide_eq_false in Hx.
    replace (total - Z.to_nat N) with 0 by lia.
    replace (length q + (length kvs + 1) - Z.to_nat N) with 0 by lia.
    by rewrite !drop_0.
Qed.

(** X10.  After a construction without initial entries and any calls, [set] on
    distinct keys none of which is present leaves the most recent
    entries, old and new together, as many as the capacity. *)
Theorem fifo_from_any_state mx r0 cmds kvs :
  constructor mx None = Normal r0 →
  NoDup kvs.*1 →
  (∀ k, k ∈ kvs.*1 → has k (modelRun cmds r0) = false) →
  entries (modelRun (SetCommands kvs) (modelRun cmds r0))
  = drop (size (modelRun cmds r0) + length kvs - Z.to_nat (capacity r0))
      (entries (modelRun cmds r0) ++ kvs).
Proof.
  intros Hr0 Hnd Hnew.
  pose proof (wf_modelRun cmds _ (wf_constructor _ _ _ Hr0)) as Hwf.
  pose proof (size_fresh_bound mx r0 cmds Hr0) as Hsz.
  rewrite capacity_after in Hsz.
  set (r := modelRun cmds r0) in *.
  rewrite modelRun_refines by done. unfold r at 1. rewrite capacity_after.
  rewrite size_entries in *. apply Queue_SetCommands_from.
  - rewrite <- (capacity_after cmds). by apply capacity_pos.
  - done.
  - rewrite fmap_app. apply NoDup_app. destruct Hwf as (_ & _ & Hr).
    split_and!; [done| |done].
    intros k Hk Hk'. apply Hnew in Hk'. by apply Map_has_false in Hk'.
Qed.

End Further.

(** ** Iterating: [keys()] and [forEach] *)

Section Iterating.
Context {K : Type} `{!JSKey K} {V St : Type}.
Implicit Types (r this : t K V) (k key : K) (v : V) (m : Map K V)
  (cb : callbackfn K V St) (s : St).

Lemma blank_shift (i : nat) (l : list (option (K * V))) :
  replicate i None ++ None :: l = replicate (S i) None ++ l.
Proof. induction i as [|i IH]; [done|]. simpl. by rewrite IH. Qed.

Lemma MapData_scan_blank (j i : nat) (e : K * V) m :
  MapData_scan (replicate j None ++ Some e :: m) i = Some (e.1, i + j + 1).
Proof.
  revert i. induction j as [|j IH]; intros i; destruct e as [k v]; simpl.
  - do 2 f_equal. lia.
  - rewrite (IH (S i)). do 2 f_equal. simpl. lia.
Qed.

Lemma MapIterator_drain_from (fuel : nat) (pre rest : Map K V) :
  length rest < fuel →
  MapIterator_drain fuel {| index := length pre; exhausted := false |}
    (pre ++ rest)
  = Map_keys rest.
Proof.
  revert pre rest. induction fuel as [|fuel IH]; intros pre rest Hf; [lia|].
  cbn [MapIterator_drain]. unfold MapIterator_next. cbn [exhausted index].
  rewrite drop_app_length.
  pose proof (MapData_scan_spec rest (length pre)) as Hscan.
  unfold Map_keys. destruct (Map_entries rest) as [|[k v] es] eqn:Hes.
  - by rewrite Hscan.
  - destruct Hscan as (j & m' & -> & -> & Hes').
    rewrite length_app, length_replicate in Hf. simpl in Hf.
    replace (pre ++ replicate j None ++ Some (k, v) :: m')
      with ((pre ++ replicate j None ++ [Some (k, v)]) ++ m')
      by (by rewrite <- !(assoc_L (++))).
    replace (length pre + j + 1)
      with (length (pre ++ replicate j None ++ [Some (k, v)]))
      by (rewrite !length_app, length_replicate; simpl; lia).
    rewrite IH by lia. unfold Map_keys. by rewrite Hes'.
Qed.

(** X11.  A new [keys()] iterator, taken to its end while the map is left
    alone, yields the keys in insertion order, each once. *)
Theorem keys_iterator_yields_keys r fuel :
  length (map r) < fuel →
  MapIterator_drain fuel Map_keys_iterator (map r) = keys r.
Proof. intros Hf. by apply (MapIterator_drain_from fuel []). Qed.

(** X12.  On every object the constructor and the methods can produce, what
    the eviction iterator has still to yield is exactly the keys that are
    present, oldest first: keys are evicted in the order of [keys()]. *)
Theorem eviction_order_is_keys mx es r0 cmds fuel :
  constructor mx es = Normal r0 →
  length (map (modelRun cmds r0)) < fuel →
  MapIterator_drain fuel (keysIterator (modelRun cmds r0)) (map (modelRun cmds r0))
  = keys (modelRun cmds r0).
Proof.
  intros Hr0 Hf.
  pose proof (wf_modelRun cmds _ (wf_constructor _ _ _ Hr0)) as (_ & Hc & _).
  set (r := modelRun cmds r0) in *. unfold keys.
  destruct (keysIterator r) as [i ex]. destruct Hc as [Hex [m' Hm]].
  simpl in Hex, Hm. subst ex. rewrite Hm in *.
  rewrite length_app, length_replicate in Hf.
  rewrite <- (length_replicate i (None : option (K * V))) at 1.
  rewrite MapIterator_drain_from by lia.
  unfold Map_keys. by rewrite Map_entries_blank.
Qed.

Lemma forEach_from_readonly (fuel : nat) (pre rest : Map K V) cb r s :
  map r = pre ++ rest →
  (∀ v k s', (cb v k r s').2 = r) →
  length rest < fuel →
  forEach_from fuel (length pre) cb r s
  = Some (visit (λ v k s', (cb v k r s').1) (Map_entries rest) s, r).
Proof.
  intros Hm Hro. revert pre rest s Hm.
  induction fuel as [|fuel IH]; intros pre rest s Hm Hf; [lia|].
  cbn [forEach_from]. rewrite Hm. unfold Map in *.
  destruct rest as [|[[k v]|] rest].
  - rewrite lookup_ge_None_2 by (rewrite length_app; simpl; lia). done.
  - rewrite list_lookup_middle by done. rewrite Map_entries_cons_Some.
    cbn [visit]. specialize (Hro v k s).
    destruct (cb v k r s) as [[s'|e] r'] eqn:Hcb; simpl in Hro; subst r'.
    + simpl in Hf.
      replace (S (length pre)) with (length (pre ++ [Some (k, v)]))
        by (rewrite length_app; simpl; lia).
      apply IH; [|lia]. by rewrite Hm, <- (assoc_L (++)).
    + done.
  - rewrite list_lookup_middle by done. rewrite Map_entries_cons_None.
    simpl in Hf.
    replace (S (length pre)) with (length (pre ++ [None : option (K * V)]))
      by (rewrite length_app; simpl; lia).
    apply IH; [|lia]. by rewrite Hm, <- (assoc_L (++)).
Qed.

(** X13.  [forEach] with a callback that does not change the container: the
    callback is called once for each entry of [entries()], in that order,
    with the value, the key and the container; a throw stops the walk and
    is passed on; the container is as it was. *)
Theorem forEach_visits_entries cb r s fuel :
  (∀ v k s', (cb v k r s').2 = r) →
  length (map r) < fuel →
  forEach fuel cb r s
  = Some (visit (λ v k s', (cb v k r s').1) (entries r) s, r).
Proof.
  intros Hro Hf. by apply (forEach_from_readonly fuel [] (map r)).
Qed.

Lemma forEach_from_delete (f : V → K → St → St) (rest : Map K V) :
  ∀ (fuel i : nat) r s,
    map r = replicate i None ++ rest →
    length rest < fuel →
    forEach_from fuel i (λ v k this s', (Normal (f v k s'), (delete k this).2)) r s
    = Some (Normal (foldl (λ s' e, f e.2 e.1 s') s (Map_entries rest)),
            {| maxSize := maxSize r;
               map := replicate i None ++ Map_clear rest;
               keysIterator := keysIterator r |}).
Proof.
  induction rest as [|[[k v]|] rest IH]; intros fuel i r s Hm Hf;
    (destruct fuel as [|fuel]; [simpl in Hf; lia|]); cbn [forEach_from];
    rewrite Hm; unfold Map in *.
  - rewrite lookup_ge_None_2 by (rewrite length_app, length_replicate; simpl; lia).
    destruct r. simpl in *. by subst.
  - rewrite list_lookup_middle by (by rewrite length_replicate).
    simpl in Hf. rewrite (IH fuel (S i)); [| |lia].
    + rewrite Map_entries_cons_Some. simpl. rewrite delete_snd. simpl.
      by rewrite blank_shift.
    + rewrite delete_snd. simpl. rewrite Hm, Map_delete_blank. simpl.
      rewrite decide_True by done. simpl. apply blank_shift.
  - rewrite list_lookup_middle by (by rewrite length_replicate).
    simpl in Hf. rewrite (IH fuel (S i)); [| |lia].
    + rewrite Map_entries_cons_None. simpl. by rewrite blank_shift.
    + rewrite Hm. apply blank_shift.
Qed.

(** X14.  [forEach] with a callback that deletes the key it is called with:
    every entry is still visited, once and in order, and the container is
    left as [clear()] would leave it. *)
Theorem forEach_delete_visited (f : V → K → St → St) r s fuel :
  length (map r) < fuel →
  forEach fuel (λ v k this s', (Normal (f v k s'), (delete k this).2)) r s
  = Some (Normal (foldl (λ s' e, f e.2 e.1 s') s (entries r)), clear r).
Proof.
  intros Hf. unfold forEach.
  by rewrite (forEach_from_delete f (map r) fuel 0 r s).
Qed.

End Iterating.

(** ** The model test *)

Section ModelTest.
Context {K : Type} `{!JSKey K} {V : Type} `{!EqDecision V}.
Implicit Types (r : t K V) (k : K) (v : V) (c : Z)
  (tc : Test.Command K V) (tcs : list (Test.Command K V)).

Lemma number_le_integral (n : nat) c :
  number_le (number_of_nat n) (number_of_Z c) = bool_decide (Z.of_nat n ≤ c)%Z.
Proof.
  unfold number_le, number_of_nat, number_of_Z, number_lt.
  destruct (Qlt_le_dec _ _) as [Hlt|Hle]; simpl; symmetry.
  - apply bool_decide_eq_false. rewrite <- Zlt_Qlt in Hlt. lia.
  - apply bool_decide_eq_true. by rewrite <- Zle_Qle in Hle.
Qed.

Lemma Command_run_passes tc c r :
  wf r → maxSize r = number_of_Z c → (Z.of_nat (size r) ≤ c)%Z →
  Test.Command_run tc {| Test.maxSize := number_of_Z c |} r
  = Normal (run (Test.Command_call tc) r).
Proof.
  intros Hwf Hmx Hsz. pose proof (capacity_integral c r Hmx) as Hcap.
  destruct tc as [k v|k]; simpl.
  - unfold Test.SetCommand_run. cbn [Test.maxSize].
    rewrite number_le_integral, bool_decide_eq_true_2.
    2:{ rewrite <- Hcap. apply (size_run_bound (SetCommand k v)); [done|].
        by rewrite Hcap. }
    rewrite has_set_eq, get_set_eq. simpl. by rewrite bool_decide_eq_true_2.
  - unfold Test.DeleteCommand_run.
    pose proof (delete_fst k r) as Hb. pose proof Hwf as (_ & _ & Hnd).
    destruct (delete k r) as [b r'] eqn:Hd. cbn [fst snd] in *.
    assert (r' = (delete k r).2) as Hr' by (by rewrite Hd).
    assert (has k r' = false) as Hk'.
    { rewrite Hr', delete_snd. unfold has. simpl. by apply Map_has_delete_eq. }
    rewrite Hk'. rewrite bool_decide_eq_true_2; [done|].
    rewrite Hb. destruct (has k r) eqn:Hk.
    + assert (S (size r') = size r); [|lia].
      rewrite Hr', delete_snd, !size_entries. unfold entries at 1. cbn [map].
      rewrite Map_entries_delete by done.
      apply length_filter_delete; [done|]. by apply Map_has_true.
    + unfold delete in Hd. unfold has in Hk.
      rewrite (Map_delete_absent _ _ Hk) in Hd. injection Hd as _ <-.
      by destruct r.
Qed.

Lemma fc_modelRun_passes tcs c r :
  wf r → maxSize r = number_of_Z c → (Z.of_nat (size r) ≤ c)%Z →
  Test.fc_modelRun {| Test.maxSize := number_of_Z c |} tcs r
  = Normal (modelRun (Test.Command_call <$> tcs) r).
Proof.
  revert r. induction tcs as [|tc tcs IH]; intros r Hwf Hmx Hsz; [done|].
  cbn [Test.fc_modelRun]. rewrite (Command_run_passes tc c r) by done.
  unfold modelRun in *. simpl. apply IH.
  - by apply wf_run.
  - by rewrite maxSize_run.
  - rewrite <- (capacity_integral c r Hmx).
    apply size_run_bound; [done|]. by rewrite (capacity_integral c r Hmx).
Qed.

(** X15.  The property of the model test holds for every integer size from 1
    on and every sequence of generated commands: the construction
    succeeds, no assertion of [SetCommand] or [DeleteCommand] fails, and
    the run ends in the state the plain calls lead to. *)
Theorem model_test_passes c tcs :
  (1 ≤ c)%Z →
  ∃ r0 : t K V,
    constructor (JSNumber (number_of_Z c)) None = Normal r0
    ∧ Test.property (number_of_Z c) tcs
      = Normal (modelRun (Test.Command_call <$> tcs) r0).
Proof.
  intros Hc. eexists. split; [by apply constructor_integral|].
  unfold Test.property. rewrite constructor_integral by done.
  apply fc_modelRun_passes.
  - eapply wf_constructor. by apply (constructor_integral c None).
  - done.
  - unfold size, Map_size. simpl. lia.
Qed.

End ModelTest.

(** ** Concrete runs of the further properties *)

Lemma set_size_witness :
  constructor (JSNumber (Finite 3)) None = Normal (fresh 3)
  ∧ size (set kd 4%Z (modelRun (take 3 scenario3) (fresh 3)))
    = if has kd (modelRun (take 3 scenario3) (fresh 3))
      then size (modelRun (take 3 scenario3) (fresh 3))
      else if number_ge
                (number_of_nat (size (modelRun (take 3 scenario3) (fresh 3))))
                (maxSize (modelRun (take 3 scenario3) (fresh 3)))
           then size (modelRun (take 3 scenario3) (fresh 3))
           else S (size (modelRun (take 3 scenario3) (fresh 3))).
Proof.
  split; [reflexivity|].
  apply (set_size (JSNumber (Finite 3)) None (fresh 3) (take 3 scenario3) kd 4%Z).
  reflexivity.
Defined.

Lemma set_other_keys_witness :
  constructor (JSNumber (Finite 3)) None = Normal (fresh 3)
  ∧ ka ≠ kd
  ∧ get ka (set kd 4%Z (modelRun (take 3 scenario3) (fresh 3))) = None.
Proof.
  assert (ka ≠ kd) as Hne by discriminate.
  split_and!; [reflexivity|exact Hne|].
  exact (set_other_keys (JSNumber (Finite 3)) None (fresh 3) (take 3 scenario3)
           kd 4%Z ka eq_refl Hne).
Defined.

Lemma set_new_appends_witness :
  has kc (modelRun (take 2 scenario3) (fresh 3)) = false
  ∧ number_ge (number_of_nat (size (modelRun (take 2 scenario3) (fresh 3))))
      (maxSize (modelRun (take 2 scenario3) (fresh 3))) = false
  ∧ entries (set kc 3%Z (modelRun (take 2 scenario3) (fresh 3)))
    = entries (modelRun (take 2 scenario3) (fresh 3)) ++ [(kc, 3%Z)]
  ∧ keys (set kc 3%Z (modelRun (take 2 scenario3) (fresh 3)))
    = keys (modelRun (take 2 scenario3) (fresh 3)) ++ [kc]
  ∧ keysIterator (set kc 3%Z (modelRun (take 2 scenario3) (fresh 3)))
    = keysIterator (modelRun (take 2 scenario3) (fresh 3)).
Proof.
  split; [reflexivity|]. split; [reflexivity|].
  apply (set_new_appends kc 3%Z (modelRun (take 2 scenario3) (fresh 3)));
    reflexivity.
Defined.


Lemma delete_keeps_order_witness :
  constructor (JSNumber (Finite 3)) None = Normal (fresh 3)
  ∧ entries (delete kc (modelRun scenario3 (fresh 3))).2
    = filter (λ e, e.1 ≠ kc) (entries (modelRun scenario3 (fresh 3))).
Proof.
  split; [reflexivity|].
  exact (delete_keeps_order (JSNumber (Finite 3)) None (fresh 3) scenario3 kc
           eq_refl).
Defined.

Lemma delete_then_set_moves_to_end_witness :
  constructor (JSNumber (Finite 3)) None = Normal (fresh 3)
  ∧ has kb (modelRun scenario3 (fresh 3)) = true
  ∧ entries (set kb 7%Z (delete kb (modelRun scenario3 (fresh 3))).2)
    = filter (λ e, e.1 ≠ kb) (entries (modelRun scenario3 (fresh 3)))
      ++ [(kb, 7%Z)].
Proof.
  split; [reflexivity|]. split; [reflexivity|].
  exact (delete_then_set_moves_to_end (JSNumber (Finite 3)) (fresh 3) scenario3
           kb 7%Z eq_refl eq_refl).
Defined.

Lemma set_then_delete_restores_witness :
  constructor (JSNumber (Finite 3)) None = Normal (fresh 3)
  ∧ has kd (modelRun (take 2 scenario3) (fresh 3)) = false
  ∧ entries (delete kd (set kd 4%Z (modelRun (take 2 scenario3) (fresh 3)))).2
    = if number_ge
           (number_of_nat (size (modelRun (take 2 scenario3) (fresh 3))))
           (maxSize (modelRun (take 2 scenario3) (fresh 3)))
      then tail (entries (modelRun (take 2 scenario3) (fresh 3)))
      else entries (modelRun (take 2 scenario3) (fresh 3)).
Proof.
  split; [reflexivity|]. split; [reflexivity|].
  apply (set_then_delete_restores (JSNumber (Finite 3)) None (fresh 3)
           (take 2 scenario3) kd 4%Z); reflexivity.
Defined.

Lemma size_never_grows_past_witness :
  ∃ r0 : t jskey Z,
    constructor (JSNumber (Finite 1)) (Some [(ka, 1); (kb, 2)]%Z) = Normal r0
    ∧ (Z.of_nat (size (modelRun scenario3 r0))
       ≤ Z.of_nat (size r0) `max` capacity r0)%Z.
Proof.
  eexists. split; [reflexivity|].
  apply (size_never_grows_past (JSNumber (Finite 1)) (Some [(ka, 1); (kb, 2)]%Z)).
  reflexivity.
Defined.

Lemma constructor_with_entries_witness :
  ∃ r0 : t jskey Z,
    constructor (JSNumber (Finite 1)) (Some [(ka, 1); (kb, 2); (ka, 3)]%Z)
    = Normal r0
    ∧ keys r0 = reverse (remove_dups (reverse [(ka, 1); (kb, 2); (ka, 3)]%Z.*1))
    ∧ (∀ k, get k r0
            = snd <$> last (filter (λ e, e.1 = k) [(ka, 1); (kb, 2); (ka, 3)]%Z))
    ∧ size r0 = length (remove_dups [(ka, 1); (kb, 2); (ka, 3)]%Z.*1)
    ∧ keysIterator r0 = Map_keys_iterator.
Proof.
  eexists. split; [reflexivity|].
  exact (constructor_with_entries (JSNumber (Finite 1))
           [(ka, 1); (kb, 2); (ka, 3)]%Z _ eq_refl).
Defined.

Lemma fifo_from_any_state_witness :
  constructor (JSNumber (Finite 3)) None = Normal (fresh 3)
  ∧ NoDup [(kc, 3); (kd, 4)]%Z.*1
  ∧ (∀ k, k ∈ [(kc, 3); (kd, 4)]%Z.*1 →
          has k (modelRun (take 2 scenario3) (fresh 3)) = false)
  ∧ entries (modelRun (SetCommands [(kc, 3); (kd, 4)]%Z)
               (modelRun (take 2 scenario3) (fresh 3)))
    = drop (size (modelRun (take 2 scenario3) (fresh 3))
            + length [(kc, 3); (kd, 4)]%Z - Z.to_nat (capacity (fresh 3)))
        (entries (modelRun (take 2 scenario3) (fresh 3)) ++ [(kc, 3); (kd, 4)]%Z).
Proof.
  assert (NoDup [(kc, 3); (kd, 4)]%Z.*1) as Hnd.
  { apply (bool_decide_unpack _). vm_compute. reflexivity. }
  assert (∀ k, k ∈ [(kc, 3); (kd, 4)]%Z.*1 →
               has k (modelRun (take 2 scenario3) (fresh 3)) = false) as Hnew.
  { intros k [->|[->|[]%elem_of_nil]%elem_of_cons]%elem_of_cons; reflexivity. }
  split_and!; [reflexivity|exact Hnd|exact Hnew|].
  exact (fifo_from_any_state (JSNumber (Finite 3)) (fresh 3) (take 2 scenario3)
           [(kc, 3); (kd, 4)]%Z eq_refl Hnd Hnew).
Defined.

Lemma keys_iterator_yields_keys_witness :
  length (map (modelRun scenario1 (fresh 1))) < 5
  ∧ MapIterator_drain 5 Map_keys_iterator (map (modelRun scenario1 (fresh 1)))
    = keys (modelRun scenario1 (fresh 1)).
Proof.
  assert (length (map (modelRun scenario1 (fresh 1))) < 5) as Hf
    by (vm_compute; lia).
  split; [exact Hf|].
  exact (keys_iterator_yields_keys (modelRun scenario1 (fresh 1)) 5 Hf).
Defined.

Lemma eviction_order_is_keys_witness :
  constructor (JSNumber (Finite 3)) None = Normal (fresh 3)
  ∧ length (map (modelRun scenario3 (fresh 3))) < 5
  ∧ MapIterator_drain 5 (keysIterator (modelRun scenario3 (fresh 3)))
      (map (modelRun scenario3 (fresh 3)))
    = keys (modelRun scenario3 (fresh 3)).
Proof.
  assert (length (map (modelRun scenario3 (fresh 3))) < 5) as Hf
    by (vm_compute; lia).
  split_and!; [reflexivity|exact Hf|].
  exact (eviction_order_is_keys (JSNumber (Finite 3)) None (fresh 3) scenario3 5
           eq_refl Hf).
Defined.

Lemma forEach_visits_entries_witness :
  (∀ (v : Z) (k : jskey) (s' : list (jskey * Z)),
     (Normal (s' ++ [(k, v)]), modelRun scenario3 (fresh 3)).2
     = modelRun scenario3 (fresh 3))
  ∧ length (map (modelRun scenario3 (fresh 3))) < 5
  ∧ forEach 5 (λ v k this s', (Normal (s' ++ [(k, v)]), this))
      (modelRun scenario3 (fresh 3)) []
    = Some (Normal [(kb, 2); (kc, 3); (kd, 4)]%Z, modelRun scenario3 (fresh 3)).
Proof.
  assert (length (map (modelRun scenario3 (fresh 3))) < 5) as Hf
    by (vm_compute; lia).
  split_and!; [reflexivity|exact Hf|].
  exact (forEach_visits_entries
           (λ (v : Z) (k : jskey) (this : t jskey Z) (s' : list (jskey * Z)),
              (Normal (s' ++ [(k, v)]), this))
           (modelRun scenario3 (fresh 3)) [] 5 (λ _ _ _, eq_refl) Hf).
Defined.

Lemma forEach_delete_visited_witness :
  length (map (modelRun scenario3 (fresh 3))) < 5
  ∧ forEach 5 (λ (v : Z) (k : jskey) this (s' : list jskey),
                 (Normal (k :: s'), (delete k this).2))
      (modelRun scenario3 (fresh 3)) []
    = Some (Normal (foldl (λ s' e, e.1 :: s') []
                      (entries (modelRun scenario3 (fresh 3)))),
            clear (modelRun scenario3 (fresh 3))).
Proof.
  assert (length (map (modelRun scenario3 (fresh 3))) < 5) as Hf
    by (vm_compute; lia).
  split; [exact Hf|].
  exact (forEach_delete_visited (λ (v : Z) (k : jskey) (s' : list jskey), k :: s')
           (modelRun scenario3 (fresh 3)) [] 5 Hf).
Defined.

Lemma model_test_passes_witness :
  (1 ≤ 3)%Z
  ∧ ∃ r0 : t jskey Z,
      constructor (JSNumber (number_of_Z 3)) None = Normal r0
      ∧ Test.property (number_of_Z 3)
          [Test.Set_ ka 1; Test.Set_ kb 2; Test.Delete_ ka; Test.Delete_ kc]%Z
        = Normal (modelRun
                    (Test.Command_call
                       <$> [Test.Set_ ka 1; Test.Set_ kb 2; Test.Delete_ ka;
                            Test.Delete_ kc]%Z)
                    r0).
Proof.
  split; [lia|].
  apply (model_test_passes 3
           [Test.Set_ ka 1; Test.Set_ kb 2; Test.Delete_ ka; Test.Delete_ kc]%Z).
  lia.
Defined.
End SizeLimitedMap.
